(** * youtube-profanity-check-backend: the job dispatch and retry engine

    A shallow embedding of [main.go]: the vocabulary check
    ([loadProfanityWords], [containsProfanity]), the language selection of
    [getTranscriptHandler], and the resolve loop of [worker] (language
    fall-back, retries with back-off, error selection, the single write to
    the job's response channel).

    Conventions.
    - A Go [string] is a sequence of bytes: Rocq's [string].  The functions
      of Go's [strings] package are modelled by what they do on ASCII text
      (bytes below [utf8.RuneSelf]); a byte from 0x80 on is kept as it is
      and is not white space.
    - The set [map[string]struct{}] is a [gset string].
    - The upstream client, the formatter, the ticker and the sleeps are
      outside the program.  The worker is a state-passing function that
      records what it asks of them in a trace of events, and reads the
      answers of the upstream client from an oracle indexed by the number
      of calls made so far.  [log.Printf] is not recorded.
    - Channels are their buffers, in a store indexed by references; a
      worker is given the jobs it receives from [jobQueue], in order. *)

From Stdlib Require Import ssreflect Ascii ZArith Lia.
From stdpp Require Import base decidable option list gmap strings.

Local Open Scope general_if_scope.

(** ** Go's [strings] package on ASCII text *)

Module GoStrings.

(** [unicode.IsSpace] below 0x80: tab, line feed, vertical tab, form feed,
    carriage return and space. *)
Definition isSpace (c : ascii) : bool := Ascii.is_space c.

Definition isUpper (c : ascii) : bool :=
  (65 <=? nat_of_ascii c)%nat && (nat_of_ascii c <=? 90)%nat.

(** ['A' <= c && c <= 'Z'] then [c += 'a' - 'A']. *)
Definition toLowerByte (c : ascii) : ascii :=
  if isUpper c then ascii_of_nat (nat_of_ascii c + 32) else c.

Fixpoint ToLower (s : string) : string :=
  match s with
  | EmptyString => EmptyString
  | String c r => String (toLowerByte c) (ToLower r)
  end.

Fixpoint TrimLeft (s : string) : string :=
  match s with
  | EmptyString => EmptyString
  | String c r => if isSpace c then TrimLeft r else s
  end.

Fixpoint TrimRight (s : string) : string :=
  match s with
  | EmptyString => EmptyString
  | String c r =>
      match TrimRight r with
      | EmptyString => if isSpace c then EmptyString else String c EmptyString
      | r' => String c r'
      end
  end.

(** [strings.TrimSpace]: all leading and trailing white space removed. *)
Definition TrimSpace (s : string) : string := TrimRight (TrimLeft s).

(** The word under construction is closed: nothing if it is empty. *)
Definition flush (tok : string) : list string :=
  match tok with
  | EmptyString => []
  | _ => [tok]
  end.

Fixpoint fields_from (tok s : string) : list string :=
  match s with
  | EmptyString => flush tok
  | String c r =>
      if isSpace c then flush tok ++ fields_from EmptyString r
      else fields_from (tok +:+ String c EmptyString) r
  end.

(** [strings.Fields]: the maximal runs of bytes that are not white space,
    in order; no empty string among them. *)
Definition Fields (s : string) : list string := fields_from EmptyString s.

Definition HasPrefix (s p : string) : bool := String.prefix p s.

(** [strings.Contains s substr]. *)
Fixpoint Contains (s substr : string) : bool :=
  HasPrefix s substr ||
  match s with
  | EmptyString => false
  | String _ r => Contains r substr
  end.

(** [strings.EqualFold] on ASCII text. *)
Definition EqualFold (a b : string) : Prop := ToLower a = ToLower b.

Fixpoint all_space (s : string) : bool :=
  match s with
  | EmptyString => true
  | String c r => isSpace c && all_space r
  end.

Fixpoint no_space (s : string) : bool :=
  match s with
  | EmptyString => true
  | String c r => negb (isSpace c) && no_space r
  end.

(** The string is empty or its last byte is white space. *)
Fixpoint ends_blank (s : string) : bool :=
  match s with
  | EmptyString => true
  | String c EmptyString => isSpace c
  | String _ r => ends_blank r
  end.

(** The string is empty or its first byte is white space. *)
Definition starts_blank (s : string) : bool :=
  match s with
  | EmptyString => true
  | String c _ => isSpace c
  end.

(** [tok] is a whole white-space-delimited word of [text]: a non-empty run
    without white space, with the start of the text or white space before
    it and the end of the text or white space after it. *)
Definition whole_word (text tok : string) : Prop :=
  tok <> EmptyString /\ no_space tok = true /\
  exists pre post, text = pre +:+ tok +:+ post /\
                   ends_blank pre = true /\ starts_blank post = true.

End GoStrings.

Import GoStrings.

(** ** The vocabulary: [loadProfanityWords] and [containsProfanity] *)

(** What [os.Open] and the [bufio.Scanner] give to [loadProfanityWords]:
    the file does not open, or the scanner yields [lines] (the successive
    values of [scanner.Text()]) and ends with [scanner.Err()]. *)
Inductive WordFile :=
| OpenFails (err : string)
| Opened (lines : list string) (scanErr : option string).

(** One iteration of the scanning loop on the global [profanityWords]. *)
Definition load_line (words : gset string) (line : string) : gset string :=
  let word := TrimSpace line in
  if decide (word = EmptyString) then words
  else {[ ToLower word ]} ∪ words.

(** [loadProfanityWords]: the new value of the global [profanityWords] and
    the error returned. *)
Definition loadProfanityWords (f : WordFile) : gset string * option string :=
  match f with
  | OpenFails err => (∅, Some err)
  | Opened lines scanErr => (foldl load_line ∅ lines, scanErr)
  end.

Fixpoint range_words (profanityWords : gset string) (words : list string) : bool :=
  match words with
  | [] => false
  | word :: rest =>
      if decide (word ∈ profanityWords) then true
      else range_words profanityWords rest
  end.

Definition containsProfanity (profanityWords : gset string) (text : string) : bool :=
  range_words profanityWords (Fields (ToLower text)).

(** ** Data of the engine *)

(** [TranscriptResponse]: the Result of a Job.  [Error = ""] is "no
    failure". *)
Record TranscriptResponse := mkResponse {
  VideoID : string;
  Profanity : bool;
  Error : string
}.

(** A buffered channel of [TranscriptResponse]: its capacity and the values
    sent and not yet received, oldest first. *)
Record Chan := mkChan {
  chan_cap : nat;
  chan_buf : list TranscriptResponse
}.

(** [make(chan TranscriptResponse, n)]. *)
Definition make_chan (n : nat) : Chan := mkChan n [].

(** [c <- v]: [None] when the buffer is full and the sender has to wait. *)
Definition chan_send (c : Chan) (v : TranscriptResponse) : option Chan :=
  if (List.length (chan_buf c) <? chan_cap c)%nat
  then Some (mkChan (chan_cap c) (chan_buf c ++ [v]))
  else None.

(** [<-c]: [None] when the buffer is empty and the receiver has to wait. *)
Definition chan_recv (c : Chan) : option (TranscriptResponse * Chan) :=
  match chan_buf c with
  | [] => None
  | v :: rest => Some (v, mkChan (chan_cap c) rest)
  end.

(** [Job]; [JobVideoID] is its field [VideoID], and [Response] is a
    reference to a channel of the store. *)
Record Job := mkJob {
  JobVideoID : string;
  Languages : list string;
  Response : nat
}.

(** What [client.GetTranscripts] returns: [err != nil] with its message, or
    the transcripts. *)
Inductive FetchOutcome (Transcript : Type) :=
| FetchErr (err : string)
| FetchOk (transcripts : list Transcript).
Arguments FetchErr {Transcript} err.
Arguments FetchOk {Transcript} transcripts.

(** What [formatter.Format] returns. *)
Inductive FormatOutcome :=
| Formatted (formattedText : string)
| FormatErr (err : string).

(** What the worker asks of its environment, in order. *)
Inductive Event :=
| EvAcquire                              (* <-rateLimiter.C *)
| EvSleep (delay : Z)                    (* time.Sleep(delay), nanoseconds *)
| EvFetch (videoID lang : string)        (* client.GetTranscripts *)
| EvSend (ch : nat) (r : TranscriptResponse). (* job.Response <- response *)

Global Instance TranscriptResponse_eq_dec : EqDecision TranscriptResponse.
Proof. solve_decision. Defined.
Global Instance Event_eq_dec : EqDecision Event.
Proof. solve_decision. Defined.
Global Instance Chan_eq_dec : EqDecision Chan.
Proof. solve_decision. Defined.

Definition is_fetch (e : Event) : bool :=
  match e with EvFetch _ _ => true | _ => false end.
Definition is_acquire (e : Event) : bool :=
  match e with EvAcquire => true | _ => false end.
Definition is_send (e : Event) : bool :=
  match e with EvSend _ _ => true | _ => false end.
Definition is_send_on (ch : nat) (e : Event) : bool :=
  match e with EvSend c _ => bool_decide (c = ch) | _ => false end.

Definition count (p : Event -> bool) (tr : list Event) : nat :=
  List.length (filter (fun e => p e = true) tr).

(** ** Constants *)

Definition maxRetries : nat := 3.

(** [time.Second], in nanoseconds. *)
Definition Second : Z := 1000000000.

(** [time.Duration(math.Pow(2, float64(attempt))) * time.Second]; the powers
    of two used here are exact in [float64]. *)
Definition backoff (attempt : nat) : Z := (2 ^ Z.of_nat attempt * Second)%Z.

(** The fall-back languages of the worker. *)
Definition fallbackLanguages : list string :=
  [ "en"; "en-US"; "en-GB"; "en-CA"; "en-AU"; "en-IN";
    "es"; "es-ES"; "es-MX"; "es-AR";
    "fr"; "fr-FR"; "fr-CA";
    "de"; "de-DE";
    "it"; "it-IT";
    "pt"; "pt-BR"; "pt-PT";
    "ja"; "ko"; "zh"; "zh-CN"; "zh-TW";
    "hi"; "ar"; "ru"; "nl"; "sv"; "no"; "da"; "fi" ].

(** [languagesToTry] of the worker: the job's languages, replaced by the
    fall-back list when they are exactly ["en"]. *)
Definition languagesToTry (languages : list string) : list string :=
  match languages with
  | [l] => if decide (l = "en") then fallbackLanguages else languages
  | _ => languages
  end.

(** The [languages] that [getTranscriptHandler] puts in the job, from the
    query parameter [lang] ([""] when it is absent). *)
Definition handler_languages (langParam : string) : list string :=
  if decide (langParam = "") then ["en"] else [langParam].

(** ** Error messages *)

(** [%v] of a [[]string]. *)
Definition fmt_strings (l : list string) : string :=
  "[" +:+ String.concat " " l +:+ "]".

Definition is_temporary (errorStr : string) : bool :=
  Contains errorStr "timeout" || Contains errorStr "connection" ||
  Contains errorStr "network" || Contains errorStr "temporary".

Definition format_failure (err : string) : string :=
  "failed to format transcript: " +:+ err.

Definition msg_no_captions (videoID : string) : string :=
  "No captions/transcripts are available for video " +:+ videoID +:+
  ". This video may not have auto-generated or manual captions enabled.".

Definition msg_private (videoID : string) : string :=
  "Video " +:+ videoID +:+ " is private and transcripts cannot be accessed.".

Definition msg_unavailable (videoID : string) : string :=
  "Video " +:+ videoID +:+ " is unavailable or has been removed.".

Definition msg_failed (videoID err : string) : string :=
  "Failed to fetch transcripts for video " +:+ videoID +:+ ": " +:+ err.

Definition msg_none_found (videoID : string) (langs : list string) : string :=
  "No transcripts found for video " +:+ videoID +:+
  " in any of the attempted languages: " +:+ fmt_strings langs.

(** The message chosen after the loops when nothing was found and no error
    is set yet. *)
Definition failure_message (videoID : string) (langs : list string)
    (lastError : option string) : string :=
  match lastError with
  | Some err =>
      let errorStr := ToLower err in
      if Contains errorStr "captions not found" then msg_no_captions videoID
      else if Contains errorStr "private" then msg_private videoID
      else if Contains errorStr "unavailable" then msg_unavailable videoID
      else msg_failed videoID err
  | None => msg_none_found videoID langs
  end.

(** ** The worker *)

Section Engine.

(** [yt_transcript_models.Transcript] and the two external capabilities:
    the upstream client, answering the [n]-th call made by this worker,
    and the text formatter. *)
Variable Transcript : Type.
Variable GetTranscripts : nat -> string -> list string -> FetchOutcome Transcript.
Variable Format : list Transcript -> FormatOutcome.

(** The global [profanityWords]. *)
Variable profanityWords : gset string.

(** The variables of one iteration of [for job := range jobs], with the
    number of upstream calls made so far and the events so far. *)
Record Run := mkRun {
  response : TranscriptResponse;
  lastError : option string;
  foundTranscript : bool;
  calls : nat;
  trace : list Event
}.

Definition emit (e : Event) (st : Run) : Run :=
  mkRun (response st) (lastError st) (foundTranscript st) (calls st)
        (trace st ++ [e]).

Definition called (st : Run) : Run :=
  mkRun (response st) (lastError st) (foundTranscript st) (S (calls st))
        (trace st).

Definition set_lastError (err : string) (st : Run) : Run :=
  mkRun (response st) (Some err) (foundTranscript st) (calls st) (trace st).

Definition set_Error (e : string) (st : Run) : Run :=
  mkRun (mkResponse (VideoID (response st)) (Profanity (response st)) e)
        (lastError st) (foundTranscript st) (calls st) (trace st).

Definition set_Profanity (b : bool) (st : Run) : Run :=
  mkRun (mkResponse (VideoID (response st)) b (Error (response st)))
        (lastError st) (foundTranscript st) (calls st) (trace st).

Definition set_found (st : Run) : Run :=
  mkRun (response st) (lastError st) true (calls st) (trace st).

(** The body of [if len(transcripts) > 0], before its [break]. *)
Definition success_case (t0 : Transcript) (st : Run) : Run :=
  match Format [t0] with
  | FormatErr err => set_Error (format_failure err) st
  | Formatted formattedText =>
      set_found (set_Profanity (containsProfanity profanityWords formattedText) st)
  end.

(** [for attempt := 0; attempt < maxRetries; attempt++].  [fuel] bounds
    the number of iterations; [maxRetries - attempt] is enough
    ([retry_loop_fuel]). *)
Fixpoint retry_loop (fuel attempt : nat) (videoID lang : string) (st : Run) : Run :=
  match fuel with
  | O => st
  | S fuel =>
      if negb (attempt <? maxRetries)%nat then st
      else
        let st := if (0 <? attempt)%nat then emit (EvSleep (backoff attempt)) st
                  else st in
        let out := GetTranscripts (calls st) videoID [lang] in
        let st := called (emit (EvFetch videoID lang) st) in
        match out with
        | FetchErr err =>
            let st := set_lastError err st in
            let errorStr := ToLower err in
            if is_temporary errorStr then
              retry_loop fuel (S attempt) videoID lang st       (* continue *)
            else if Contains errorStr "captions not found" then
              st                                                (* break *)
            else if (attempt <? maxRetries - 1)%nat then
              retry_loop fuel (S attempt) videoID lang st       (* continue *)
            else st                                             (* break *)
        | FetchOk transcripts =>
            match transcripts with
            | t0 :: _ => success_case t0 st                     (* break *)
            | [] => retry_loop fuel (S attempt) videoID lang st (* next attempt *)
            end
        end
  end.

(** One iteration of the retry loop, [next] being the rest of the loop
    from the following attempt on ([retry_loop_unfold]). *)
Definition retry_step (next : Run -> Run) (attempt : nat)
    (videoID lang : string) (st : Run) : Run :=
  if negb (attempt <? maxRetries)%nat then st
  else
    let st := if (0 <? attempt)%nat then emit (EvSleep (backoff attempt)) st
              else st in
    let out := GetTranscripts (calls st) videoID [lang] in
    let st := called (emit (EvFetch videoID lang) st) in
    match out with
    | FetchErr err =>
        let st := set_lastError err st in
        let errorStr := ToLower err in
        if is_temporary errorStr then next st
        else if Contains errorStr "captions not found" then st
        else if (attempt <? maxRetries - 1)%nat then next st
        else st
    | FetchOk transcripts =>
        match transcripts with
        | t0 :: _ => success_case t0 st
        | [] => next st
        end
    end.

(** [for _, lang := range languagesToTry]. *)
Fixpoint lang_loop (videoID : string) (langs : list string) (st : Run) : Run :=
  match langs with
  | [] => st
  | lang :: rest =>
      let st := emit EvAcquire st in
      let st := retry_loop maxRetries 0 videoID lang st in
      if foundTranscript st then st                             (* break *)
      else lang_loop videoID rest st
  end.

(** [if !foundTranscript && response.Error == ""]. *)
Definition finish (videoID : string) (langs : list string) (st : Run) : Run :=
  if negb (foundTranscript st) && bool_decide (Error (response st) = "")
  then set_Error (failure_message videoID langs (lastError st)) st
  else st.

(** The body of [for job := range jobs] up to the send: the [Run] at
    [job.Response <- response], started after [calls0] upstream calls. *)
Definition resolve (job : Job) (calls0 : nat) : Run :=
  let st := mkRun (mkResponse (JobVideoID job) false "") None false calls0 [] in
  let langs := languagesToTry (Languages job) in
  finish (JobVideoID job) langs (lang_loop (JobVideoID job) langs st).

(** The state of a worker between jobs: the channels, the number of
    upstream calls made, the events so far. *)
Record World := mkWorld {
  chans : gmap nat Chan;
  ncalls : nat;
  events : list Event
}.

(** One iteration of [for job := range jobs].  [None]: the worker waits
    for ever on [job.Response <- response]. *)
Definition worker_job (w : World) (job : Job) : option World :=
  let st := resolve job (ncalls w) in
  c ← chans w !! Response job;
  c' ← chan_send c (response st);
  Some (mkWorld (<[Response job := c']> (chans w)) (calls st)
                (events w ++ trace st ++ [EvSend (Response job) (response st)])).

(** [worker], on the jobs it receives from [jobs], in order. *)
Fixpoint worker (w : World) (jobs : list Job) : option World :=
  match jobs with
  | [] => Some w
  | job :: rest => w' ← worker_job w job; worker w' rest
  end.

(** [getTranscriptHandler], first part: the response channel is made and
    the job is built ([respChan] is a fresh reference). *)
Definition handler_submit (σ : gmap nat Chan) (videoID langParam : string)
    : gmap nat Chan * Job :=
  let respChan := fresh (dom σ) in
  (<[respChan := make_chan 1]> σ,
   mkJob videoID (handler_languages langParam) respChan).

End Engine.


(** Two lines of a word-list file that spell the same entry: one core, up
    to the case of its letters, with any white space around it. *)
Definition same_entry (line line' : string) : Prop :=
  exists pre post pre' post' v v',
    line = pre +:+ v +:+ post /\ line' = pre' +:+ v' +:+ post' /\
    all_space pre = true /\ all_space post = true /\
    all_space pre' = true /\ all_space post' = true /\
    EqualFold v v'.

(** ** The reply of [getTranscriptHandler] *)

Inductive Reply :=
| ReplyError (status : nat) (error : string)
| ReplyOK (video_id : string) (profanity : bool).

Definition StatusNotFound : nat := 404.
Definition StatusForbidden : nat := 403.
Definition StatusInternalServerError : nat := 500.

(** [getTranscriptHandler], after [response := <-respChan]. *)
Definition handler_reply (response : TranscriptResponse) : Reply :=
  if decide (Error response <> "") then
    let e := ToLower (Error response) in
    if Contains e "no transcripts" then ReplyError StatusNotFound (Error response)
    else if Contains e "captions not found" then ReplyError StatusNotFound (Error response)
    else if Contains e "private" || Contains e "unavailable"
    then ReplyError StatusForbidden (Error response)
    else ReplyError StatusInternalServerError (Error response)
  else ReplyOK (VideoID response) (Profanity response).

(** ** Vocabulary of the properties *)

(** The upstream errors that the worker reports as "private" or
    "unavailable" ([failure_message]): the Forbidden class. *)
Definition is_forbidden (err : string) : bool :=
  let errorStr := ToLower err in
  negb (Contains errorStr "captions not found") &&
  (Contains errorStr "private" || Contains errorStr "unavailable").

(** The events of [n] consecutive attempts on [lang], the first of them
    being attempt number [attempt]: a back-off sleep before every attempt but
    attempt 0, then the upstream call. *)
Fixpoint attempt_events (videoID lang : string) (attempt n : nat) : list Event :=
  match n with
  | O => []
  | S n =>
      (if (0 <? attempt)%nat then [EvSleep (backoff attempt)] else []) ++
      EvFetch videoID lang :: attempt_events videoID lang (S attempt) n
  end.

(** The events of one language tried with [p.2] attempts: the wait on the
    rate limiter, then the attempts. *)
Definition lang_events (videoID : string) (p : string * nat) : list Event :=
  EvAcquire :: attempt_events videoID p.1 0 p.2.

Fixpoint job_events (videoID : string) (tried : list (string * nat)) : list Event :=
  match tried with
  | [] => []
  | p :: rest => lang_events videoID p ++ job_events videoID rest
  end.

(** The languages of the upstream calls of a trace, in order. *)
Fixpoint fetched (tr : list Event) : list string :=
  match tr with
  | [] => []
  | EvFetch _ lang :: rest => lang :: fetched rest
  | _ :: rest => fetched rest
  end.

(** An upstream error after which the same language is tried again while
    attempts remain: a temporary one, or one that is not "captions not
    found". *)
Definition keeps_retrying (err : string) : bool :=
  is_temporary (ToLower err) ||
  negb (Contains (ToLower err) "captions not found").

(** The short-circuit reading of the Forbidden class, on the run of [job]
    started with no upstream call made: once a call has answered with a
    Forbidden error, no call for another language follows. *)
Definition forbidden_short_circuits {Transcript : Type}
    (GetTranscripts : nat -> string -> list string -> FetchOutcome Transcript)
    (Format : list Transcript -> FormatOutcome)
    (profanityWords : gset string) (job : Job) : Prop :=
  let run := resolve Transcript GetTranscripts Format profanityWords job 0 in
  forall (i j : nat) (lang lang' err : string),
    fetched (trace run) !! i = Some lang ->
    GetTranscripts i (JobVideoID job) [lang] = FetchErr err ->
    is_forbidden err = true ->
    i < j ->
    fetched (trace run) !! j = Some lang' ->
    lang' = lang.

(** What a run has asked of the environment since [st]: [n] attempts on
    [lang], from attempt number [attempt] on. *)
Definition extends (st : Run) (videoID lang : string) (attempt n : nat) (st' : Run) : Prop :=
  trace st' = trace st ++ attempt_events videoID lang attempt n /\
  calls st' = calls st + n /\
  VideoID (response st') = VideoID (response st).

(** The run after three attempts on [lang] that found nothing. *)
Definition after_three (videoID lang : string) (last : option string) (st : Run) : Run :=
  mkRun (response st) last (foundTranscript st) (calls st + 3)
        (trace st ++ attempt_events videoID lang 0 3).

(** ** Example environments *)

(** Transcripts that are their own text. *)
Definition format_text (transcripts : list string) : FormatOutcome :=
  match transcripts with
  | [t] => Formatted t
  | _ => FormatErr "one transcript expected"
  end.

(** A formatter that fails on the transcript ["en"]. *)
Definition format_but_en (transcripts : list string) : FormatOutcome :=
  match transcripts with
  | [t] => if decide (t = "en") then FormatErr "boom"
           else Formatted "what the heck is this"
  | _ => FormatErr "one transcript expected"
  end.

Definition upstream_private (n : nat) (videoID : string) (langs : list string)
    : FetchOutcome string := FetchErr "video is private".

Definition upstream_timeout (n : nat) (videoID : string) (langs : list string)
    : FetchOutcome string := FetchErr "connection timeout".

Definition upstream_empty (n : nat) (videoID : string) (langs : list string)
    : FetchOutcome string := FetchOk [].

(** Every language has a transcript: its own tag. *)
Definition upstream_echo (n : nat) (videoID : string) (langs : list string)
    : FetchOutcome string := FetchOk langs.

Definition example_words : gset string :=
  (loadProfanityWords (Opened ["heck"; " Damn "] None)).1.

(** The job that [getTranscriptHandler] submits for [videoID] and the query
    parameter [langParam], in a store with no other channel. *)
Definition example_job (videoID langParam : string) : Job :=
  (handler_submit ∅ videoID langParam).2.

(** Two requests: the store after both submissions and the two jobs. *)
Definition two_requests : gmap nat Chan * list Job :=
  let '(σ1, job1) := handler_submit ∅ "abc123" "fr" in
  let '(σ2, job2) := handler_submit σ1 "xyz" "" in
  (σ2, [job1; job2]).

(** ** The earlier revision of [worker]

    The revision of [worker] that [main.go] keeps after the current one: one
    loop over the languages, no rate limiter and no retry. *)

Module Earlier.

Definition fallbackLanguages : list string :=
  [ "en"; "en-US"; "en-GB"; "es"; "fr"; "de"; "it"; "pt"; "ja"; "ko"; "zh";
    "hi"; "ar"; "ru" ].

Definition languagesToTry (languages : list string) : list string :=
  match languages with
  | [l] => if decide (l = "en") then fallbackLanguages else languages
  | _ => languages
  end.

Definition msg_last_error (videoID err : string) : string :=
  "no transcripts available for video " +:+ videoID +:+ ". Last error: " +:+ err.

Definition msg_none_found (videoID : string) (langs : list string) : string :=
  "no transcripts found for video " +:+ videoID +:+
  " in any of the attempted languages: " +:+ fmt_strings langs.

Section Worker.

Variable Transcript : Type.
Variable GetTranscripts : nat -> string -> list string -> FetchOutcome Transcript.
Variable Format : list Transcript -> FormatOutcome.
Variable profanityWords : gset string.

(** [for _, lang := range languagesToTry]. *)
Fixpoint lang_loop (videoID : string) (langs : list string) (st : Run) : Run :=
  match langs with
  | [] => st
  | lang :: rest =>
      let out := GetTranscripts (calls st) videoID [lang] in
      let st := called (emit (EvFetch videoID lang) st) in
      match out with
      | FetchErr err =>
          let st := set_lastError err st in
          if Contains (ToLower err) "captions not found"
          then lang_loop videoID rest st                          (* continue *)
          else st                                                 (* break *)
      | FetchOk transcripts =>
          match transcripts with
          | t0 :: _ =>
              success_case Transcript Format profanityWords t0 st (* break *)
          | [] => lang_loop videoID rest st
          end
      end
  end.

(** [if !foundTranscript && response.Error == ""]. *)
Definition finish (videoID : string) (langs : list string) (st : Run) : Run :=
  if negb (foundTranscript st) && bool_decide (Error (response st) = "")
  then
    match lastError st with
    | Some err => set_Error (msg_last_error videoID err) st
    | None => set_Error (msg_none_found videoID langs) st
    end
  else st.

(** The body of [for job := range jobs] up to the send. *)
Definition resolve (job : Job) (calls0 : nat) : Run :=
  let st := mkRun (mkResponse (JobVideoID job) false "") None false calls0 [] in
  let langs := languagesToTry (Languages job) in
  finish (JobVideoID job) langs (lang_loop (JobVideoID job) langs st).

End Worker.

End Earlier.

(** ** The whole of [getTranscriptHandler] *)

Definition StatusBadRequest : nat := 400.

(** How a request ends: refused by [http.Error] before any job is made,
    waiting for ever on a channel, or answered. *)
Inductive HandlerOutcome :=
| Rejected (status : nat) (message : string)
| Waiting
| Replied (reply : Reply).

Section Handler.

Variable Transcript : Type.
Variable GetTranscripts : nat -> string -> list string -> FetchOutcome Transcript.
Variable Format : list Transcript -> FormatOutcome.
Variable profanityWords : gset string.

(** [getTranscriptHandler] on the route variables [vars] and the query
    parameter [lang], when a worker takes the job as soon as it is
    submitted: the check of [video_id], the submission, the worker's
    iteration, the receive on [respChan] and the reply. *)
Definition getTranscriptHandler (vars : gmap string string) (langParam : string)
    (w : World) : HandlerOutcome * World :=
  match vars !! "video_id" with
  | None => (Rejected StatusBadRequest "Missing video_id in URL", w)
  | Some videoID =>
      if decide (videoID = "")
      then (Rejected StatusBadRequest "Missing video_id in URL", w)
      else
        let '(σ, job) := handler_submit (chans w) videoID langParam in
        let w1 := mkWorld σ (ncalls w) (events w) in
        match worker_job Transcript GetTranscripts Format profanityWords w1 job with
        | None => (Waiting, w1)
        | Some w2 =>
            match chans w2 !! Response job ≫= chan_recv with
            | None => (Waiting, w2)
            | Some (response, c) =>
                (Replied (handler_reply response),
                 mkWorld (<[Response job := c]> (chans w2)) (ncalls w2) (events w2))
            end
        end
  end.

End Handler.

(** ** More vocabulary of the properties *)

(** The time asked of [time.Sleep] in a trace, in nanoseconds. *)
Fixpoint total_sleep (tr : list Event) : Z :=
  match tr with
  | [] => 0
  | EvSleep d :: rest => d + total_sleep rest
  | _ :: rest => total_sleep rest
  end.

(** The error of the most recent failing upstream call of a trace whose
    first call is call number [n]; [acc] when no call of the trace fails. *)
Fixpoint last_error {Transcript : Type}
    (GetTranscripts : nat -> string -> list string -> FetchOutcome Transcript)
    (n : nat) (acc : option string) (tr : list Event) : option string :=
  match tr with
  | [] => acc
  | EvFetch videoID lang :: rest =>
      last_error GetTranscripts (S n)
        (match GetTranscripts n videoID [lang] with
         | FetchErr err => Some err
         | FetchOk _ => acc
         end) rest
  | _ :: rest => last_error GetTranscripts n acc rest
  end.

(** The four cases of one attempt on [lang] keep [P]. *)
Definition attempt_keeps {Transcript : Type}
    (GetTranscripts : nat -> string -> list string -> FetchOutcome Transcript)
    (Format : list Transcript -> FormatOutcome) (profanityWords : gset string)
    (P : Run -> Prop) (videoID lang : string) : Prop :=
  (forall st d, P st -> P (emit (EvSleep d) st)) /\
  (forall st err, P st ->
     GetTranscripts (calls st) videoID [lang] = FetchErr err ->
     P (set_lastError err (called (emit (EvFetch videoID lang) st)))) /\
  (forall st, P st ->
     GetTranscripts (calls st) videoID [lang] = FetchOk [] ->
     P (called (emit (EvFetch videoID lang) st))) /\
  (forall st t0 ts, P st ->
     GetTranscripts (calls st) videoID [lang] = FetchOk (t0 :: ts) ->
     P (success_case Transcript Format profanityWords t0
          (called (emit (EvFetch videoID lang) st)))).

(** What holds of the verdict at every point of the resolve loop started
    at call [calls0] on the languages [langs]: no verdict without a
    transcript found, and a verdict found comes from a call of the job. *)
Definition verdict_inv {Transcript : Type}
    (GetTranscripts : nat -> string -> list string -> FetchOutcome Transcript)
    (Format : list Transcript -> FormatOutcome) (profanityWords : gset string)
    (calls0 : nat) (videoID : string) (langs : list string) (st : Run) : Prop :=
  calls0 <= calls st /\
  (foundTranscript st = false -> Profanity (response st) = false) /\
  (foundTranscript st = true ->
   exists n lang t0 ts text,
     calls0 <= n < calls st /\ lang ∈ langs /\
     GetTranscripts n videoID [lang] = FetchOk (t0 :: ts) /\
     Format [t0] = Formatted text /\
     Profanity (response st) = containsProfanity profanityWords text).

(** What holds of the errors at every point of the resolve loop started at
    call [calls0]: the error remembered is the one of the most recent
    failing call, and the error of the response, if any, is a format
    failure. *)
Definition error_inv {Transcript : Type}
    (GetTranscripts : nat -> string -> list string -> FetchOutcome Transcript)
    (calls0 : nat) (st : Run) : Prop :=
  lastError st = last_error GetTranscripts calls0 None (trace st) /\
  calls st = calls0 + count is_fetch (trace st) /\
  (Error (response st) = "" \/ exists e, Error (response st) = format_failure e).

(** ** More example environments *)

Definition upstream_no_captions (n : nat) (videoID : string) (langs : list string)
    : FetchOutcome string := FetchErr "Captions not found for this language".

(** Two timeouts, then a transcript for every language: its own tag. *)
Definition upstream_flaky (n : nat) (videoID : string) (langs : list string)
    : FetchOutcome string :=
  if (n <? 2)%nat then FetchErr "connection timeout" else FetchOk langs.

Definition example_vars : gmap string string := {[ "video_id" := "abc123" ]}.

(** ** Letter case on ASCII text, by the alphabet *)


Definition upper_letters : string := "ABCDEFGHIJKLMNOPQRSTUVWXYZ".
Definition lower_letters : string := "abcdefghijklmnopqrstuvwxyz".

Fixpoint pair_up (a b : string) : list (ascii * ascii) :=
  match a, b with
  | String c a', String d b' => (c, d) :: pair_up a' b'
  | _, _ => []
  end.

(** The upper-case letters, each with its lower-case letter. *)
Definition ascii_letters : list (ascii * ascii) :=
  pair_up upper_letters lower_letters.



(** The string has no upper-case letter. *)
Fixpoint no_upper (s : string) : bool :=
  match s with
  | EmptyString => true
  | String c r =>
      negb (bool_decide (c ∈ ascii_letters.*1)) && no_upper r
  end.

(** * Properties *)

(** ** Strings *)

Section StringFacts.

Lemma str_app_nil_r (s : string) : s +:+ "" = s.
Proof. induction s as [|c s IH]; [done|]. by rw /String.app /= -/String.app IH. Qed.

Lemma str_app_nil_l (s : string) : "" +:+ s = s.
Proof. done. Qed.

Lemma str_app_cons (c : ascii) (a b : string) :
  String c a +:+ b = String c (a +:+ b).
Proof. done. Qed.

Lemma str_app_assoc (a b c : string) : (a +:+ b) +:+ c = a +:+ b +:+ c.
Proof. induction a as [|x a IH]; [done|]. by rw !str_app_cons IH. Qed.

Lemma str_app_snoc_cons (a : string) (c : ascii) (b : string) :
  (a +:+ String c "") +:+ b = a +:+ String c b.
Proof. by rw str_app_assoc. Qed.

Lemma str_app_eq_nil (a b : string) : a +:+ b = "" -> a = "" /\ b = "".
Proof. destruct a; [done|]. by rw str_app_cons. Qed.

Lemma toLowerByte_isSpace (c : ascii) : isSpace (toLowerByte c) = isSpace c.
Proof. by destruct c as [[] [] [] [] [] [] [] []]. Qed.

Lemma toLowerByte_idemp (c : ascii) : toLowerByte (toLowerByte c) = toLowerByte c.
Proof. by destruct c as [[] [] [] [] [] [] [] []]. Qed.

Lemma ToLower_idemp (s : string) : ToLower (ToLower s) = ToLower s.
Proof.
  induction s as [|c s IH]; [done|].
  by rw /= toLowerByte_idemp IH.
Qed.

Lemma ToLower_app (a b : string) : ToLower (a +:+ b) = ToLower a +:+ ToLower b.
Proof. induction a as [|c a IH]; [done|]. by rw !str_app_cons /= IH. Qed.

Lemma ToLower_nil_iff (s : string) : ToLower s = "" <-> s = "".
Proof. by destruct s. Qed.

Lemma ToLower_no_space (s : string) : no_space (ToLower s) = no_space s.
Proof.
  induction s as [|c s IH]; [done|].
  by rw /= toLowerByte_isSpace IH.
Qed.

Lemma flush_ToLower (tok : string) : flush (ToLower tok) = ToLower <$> flush tok.
Proof. by destruct tok. Qed.

Lemma fields_from_ToLower (s tok : string) :
  fields_from (ToLower tok) (ToLower s) = ToLower <$> fields_from tok s.
Proof.
  revert tok. induction s as [|c s IH]; intros tok; simpl.
  - apply flush_ToLower.
  - rw toLowerByte_isSpace. destruct (isSpace c).
    + by rw fmap_app flush_ToLower -(IH "").
    + by rw -IH ToLower_app.
Qed.

(** Lower-casing a text lower-cases each of its fields. *)
Lemma Fields_ToLower (s : string) : Fields (ToLower s) = ToLower <$> Fields s.
Proof. apply (fields_from_ToLower s ""). Qed.

Lemma elem_of_flush (x tok : string) : x ∈ flush tok <-> x = tok /\ tok <> "".
Proof.
  destruct tok; simpl.
  - split; [by inversion 1 | by intros [_ ?]].
  - rw list_elem_of_singleton. split; [by intros -> | by intros [-> _]].
Qed.

Lemma no_space_app (a b : string) :
  no_space (a +:+ b) = no_space a && no_space b.
Proof.
  induction a as [|c a IH]; [done|].
  by rw str_app_cons /= IH andb_assoc.
Qed.

Lemma ends_blank_snoc (a : string) (c : ascii) :
  ends_blank (a +:+ String c "") = isSpace c.
Proof.
  induction a as [|x a IH]; [done|].
  rw str_app_cons /= IH. by destruct a.
Qed.

Lemma ends_blank_app (a b : string) :
  b <> "" -> ends_blank (a +:+ b) = ends_blank b.
Proof.
  intros Hb. induction a as [|x a IH]; [done|].
  rw str_app_cons /= IH.
  destruct (a +:+ b) eqn:E; [|done].
  by apply str_app_eq_nil in E as [_ ?].
Qed.

(** Every field is a whole word of the text read so far. *)
Lemma fields_from_sound (s tok x : string) :
  no_space tok = true ->
  x ∈ fields_from tok s ->
  x <> "" /\ no_space x = true /\
  exists pre post, tok +:+ s = pre +:+ x +:+ post /\
                   ends_blank pre = true /\ starts_blank post = true.
Proof.
  revert tok. induction s as [|c s IH]; intros tok Htok; simpl.
  - intros [-> Hne]%elem_of_flush. split_and!; [done..|].
    exists "", "". by rw !str_app_nil_r.
  - destruct (isSpace c) eqn:Hc.
    + intros [[-> Hne]%elem_of_flush | Hx]%elem_of_app.
      * split_and!; [done..|]. exists "", (String c s). by rw /= Hc.
      * destruct (IH "" eq_refl Hx) as (Hne & Hns & pre & post & E & Hpre & Hpost).
        split_and!; [done..|].
        exists (tok +:+ String c pre), post. split_and!; [| |done].
        -- rw str_app_nil_l in E. by rw str_app_assoc str_app_cons -E.
        -- destruct pre as [|d pre].
           ++ by rw ends_blank_snoc.
           ++ by rw ends_blank_app.
    + intros Hx. apply IH in Hx.
      * destruct Hx as (Hne & Hns & pre & post & E & Hpre & Hpost).
        split_and!; [done..|]. exists pre, post.
        by rw str_app_snoc_cons in E.
      * by rw no_space_app /= Hc Htok.
Qed.

Lemma fields_from_word (x post tok : string) :
  no_space x = true -> starts_blank post = true -> tok +:+ x <> "" ->
  tok +:+ x ∈ fields_from tok (x +:+ post).
Proof.
  revert tok. induction x as [|c x IH]; intros tok Hx Hpost Hne.
  - rw str_app_nil_r in Hne |- *. destruct post as [|d post]; simpl.
    + by apply elem_of_flush.
    + simpl in Hpost. rw Hpost. apply elem_of_app. left.
      by apply elem_of_flush.
  - simpl in Hx. apply andb_prop in Hx as [Hc Hx].
    rw str_app_cons /=. apply negb_true_iff in Hc. rw Hc.
    rw -str_app_snoc_cons. apply IH; [done..|].
    rw str_app_snoc_cons. by destruct tok.
Qed.

Lemma fields_from_skip (pre rest tok x : string) :
  ends_blank pre = true -> (pre = "" -> tok = "") ->
  x ∈ fields_from "" rest -> x ∈ fields_from tok (pre +:+ rest).
Proof.
  revert tok. induction pre as [|c pre IH]; intros tok Hpre Htok Hx.
  - by rw (Htok eq_refl).
  - rw str_app_cons /=. destruct (isSpace c) eqn:Hc.
    + apply elem_of_app. right. apply IH; [|done..].
      simpl in Hpre. by destruct pre.
    + destruct pre as [|d pre]; [simpl in Hpre; congruence|].
      apply IH; [done| done |done].
Qed.

(** The fields of a text are its whole white-space-delimited words. *)
Lemma elem_of_Fields (text tok : string) :
  tok ∈ Fields text <-> whole_word text tok.
Proof.
  split.
  - intros H. apply fields_from_sound in H as (? & ? & pre & post & E & ? & ?);
      [|done].
    split_and!; [done..|]. by exists pre, post.
  - intros (Hne & Hns & pre & post & -> & Hpre & Hpost).
    apply fields_from_skip; [done..|].
    by apply (fields_from_word tok post "").
Qed.

Lemma TrimLeft_spaces (pre s : string) :
  all_space pre = true -> TrimLeft (pre +:+ s) = TrimLeft s.
Proof.
  induction pre as [|c pre IH]; [done|].
  intros [Hc Hp]%andb_prop. by rw str_app_cons /= Hc IH.
Qed.

Lemma TrimRight_all_space (s : string) : all_space s = true -> TrimRight s = "".
Proof.
  induction s as [|c s IH]; [done|].
  intros [Hc Hs]%andb_prop. by rw /= IH // Hc.
Qed.

Lemma TrimRight_spaces (s post : string) :
  all_space post = true -> TrimRight (s +:+ post) = TrimRight s.
Proof.
  intros Hp. induction s as [|c s IH].
  - by apply TrimRight_all_space.
  - by rw str_app_cons /= IH.
Qed.

Lemma TrimLeft_all_space (s : string) : all_space s = true -> TrimLeft s = "".
Proof.
  induction s as [|c s IH]; [done|].
  intros [Hc Hs]%andb_prop. by rw /= Hc IH.
Qed.

(** White space around a line does not change what [TrimSpace] keeps. *)
Lemma TrimSpace_spaces (pre v post : string) :
  all_space pre = true -> all_space post = true ->
  TrimSpace (pre +:+ v +:+ post) = TrimSpace v.
Proof.
  intros Hpre Hpost. rw /TrimSpace TrimLeft_spaces //.
  induction v as [|c v IH].
  - by rw TrimLeft_all_space.
  - rw str_app_cons /=. destruct (isSpace c); [done|].
    by rw -str_app_cons TrimRight_spaces.
Qed.

Lemma TrimLeft_ToLower (s : string) : TrimLeft (ToLower s) = ToLower (TrimLeft s).
Proof.
  induction s as [|c s IH]; [done|].
  rw /= toLowerByte_isSpace. by destruct (isSpace c).
Qed.

Lemma TrimRight_ToLower (s : string) : TrimRight (ToLower s) = ToLower (TrimRight s).
Proof.
  induction s as [|c s IH]; [done|].
  rw /= IH toLowerByte_isSpace.
  destruct (TrimRight s); simpl; [by destruct (isSpace c)|done].
Qed.

Lemma TrimSpace_ToLower (s : string) : TrimSpace (ToLower s) = ToLower (TrimSpace s).
Proof. by rw /TrimSpace TrimLeft_ToLower TrimRight_ToLower. Qed.

End StringFacts.

(** ** The vocabulary check *)

Section Vocabulary.

Implicit Types (pw : gset string) (text tok w line : string).

Lemma range_words_true pw (words : list string) :
  range_words pw words = true <-> exists w, w ∈ words /\ w ∈ pw.
Proof.
  induction words as [|word rest IH]; simpl.
  - split; [done|]. by intros (w & ?%elem_of_nil & _).
  - destruct (decide (word ∈ pw)) as [Hin|Hout].
    + split; [|done]. intros _. exists word. split; [left|done].
    + rw IH. split.
      * intros (w & ? & ?). exists w. split; [by right|done].
      * intros (w & [->|?]%elem_of_cons & ?); [done|]. by exists w.
Qed.

(** The check holds exactly when the lower-casing of a whole word of the
    text is in the set. *)
Lemma containsProfanity_spec pw text :
  containsProfanity pw text = true <->
  exists tok, whole_word text tok /\ ToLower tok ∈ pw.
Proof.
  rw /containsProfanity range_words_true Fields_ToLower. split.
  - intros (w & Hw & Hin). apply list_elem_of_fmap in Hw as (tok & -> & Htok).
    exists tok. by rw -elem_of_Fields.
  - intros (tok & Htok & Hin). exists (ToLower tok). split; [|done].
    apply list_elem_of_fmap. exists tok. by rw elem_of_Fields.
Qed.

Lemma TrimLeft_head (s : string) :
  TrimLeft s = "" \/ exists c r, TrimLeft s = String c r /\ isSpace c = false.
Proof.
  induction s as [|c s IH]; [by left|]. simpl.
  destruct (isSpace c) eqn:Hc; [done|]. right. by exists c, s.
Qed.

Lemma TrimRight_idemp (s : string) : TrimRight (TrimRight s) = TrimRight s.
Proof.
  induction s as [|c s IH]; [done|]. simpl.
  destruct (TrimRight s) as [|d r] eqn:E.
  - destruct (isSpace c) eqn:Hc; [done|]. by rw /= Hc.
  - change (TrimRight (String c (String d r))) with
      (match TrimRight (String d r) with
       | "" => if isSpace c then "" else String c ""
       | r' => String c r'
       end).
    by rw IH.
Qed.

Lemma TrimSpace_idemp (s : string) : TrimSpace (TrimSpace s) = TrimSpace s.
Proof.
  rw /TrimSpace. destruct (TrimLeft_head s) as [->|(c & r & -> & Hc)]; [done|].
  assert (TrimLeft (TrimRight (String c r)) = TrimRight (String c r)) as ->.
  { simpl. destruct (TrimRight r); by rw ?Hc /= Hc. }
  apply TrimRight_idemp.
Qed.

(** The words of the set after the scanning loop: those before it, and
    the trimmed, lower-cased non-blank lines. *)
Lemma elem_of_load_lines (lines : list string) (acc : gset string) w :
  w ∈ foldl load_line acc lines <->
  w ∈ acc \/ exists line, line ∈ lines /\ TrimSpace line <> "" /\
                          w = ToLower (TrimSpace line).
Proof.
  revert acc. induction lines as [|l lines IH]; intros acc; simpl.
  - split; [by left|]. intros [?|(line & ?%elem_of_nil & _)]; done.
  - rw IH /load_line. destruct (decide (TrimSpace l = "")) as [Hl|Hl].
    + split.
      * intros [?|(line & ? & ? & ?)]; [by left|right].
        exists line. split; [by right|done].
      * intros [?|(line & [->|?]%elem_of_cons & ? & ?)]; [by left|done|right].
        by exists line.
    + rw elem_of_union elem_of_singleton. split.
      * intros [[->|?]|(line & ? & ? & ?)]; [right|by left|right].
        -- exists l. split; [left|done].
        -- exists line. split; [by right|done].
      * intros [?|(line & [->|?]%elem_of_cons & ? & ->)];
          [by left; right|by left; left|right].
        by exists line.
Qed.

Lemma elem_of_loadProfanityWords (f : WordFile) w :
  w ∈ (loadProfanityWords f).1 ->
  exists line, TrimSpace line <> "" /\ w = ToLower (TrimSpace line).
Proof.
  destruct f as [err|lines scanErr]; simpl; [done|].
  intros [?|(line & _ & ? & ?)]%elem_of_load_lines; [done|]. by exists line.
Qed.

(** What the set keeps of a line does not depend on how the entry is
    spelled. *)
Lemma same_entry_norm line line' :
  same_entry line line' ->
  ToLower (TrimSpace line) = ToLower (TrimSpace line').
Proof.
  intros (pre & post & pre' & post' & v & v' & -> & -> & ? & ? & ? & ? & Hv).
  rw !TrimSpace_spaces // -!TrimSpace_ToLower. by rw Hv.
Qed.

Lemma same_entry_load_line (acc : gset string) line line' :
  same_entry line line' -> load_line acc line = load_line acc line'.
Proof.
  intros H%same_entry_norm. rw /load_line.
  destruct (decide (TrimSpace line = "")) as [E|E],
           (decide (TrimSpace line' = "")) as [E'|E'].
  - done.
  - exfalso. apply E', ToLower_nil_iff. by rw -H E.
  - exfalso. apply E, ToLower_nil_iff. by rw H E'.
  - by rw H.
Qed.

Lemma same_entry_foldl (lines lines' : list string) (acc : gset string) :
  Forall2 same_entry lines lines' ->
  foldl load_line acc lines = foldl load_line acc lines'.
Proof.
  intros H. revert acc. induction H as [|l l' ls ls' Hl _ IH]; intros acc; [done|].
  simpl. by rw (same_entry_load_line acc l l') // IH.
Qed.

End Vocabulary.

Section LetterCase.






Lemma no_upper_ToLower (s : string) : no_upper (ToLower s) = true.
Proof.
  induction s as [|c s IH]; [done|]. rw /= IH andb_true_r.
  by destruct c as [[] [] [] [] [] [] [] []]; vm_compute.
Qed.

(** The set that [loadProfanityWords] builds has no upper-case letter. *)
Lemma loaded_no_upper (f : WordFile) (w : string) :
  w ∈ (loadProfanityWords f).1 -> no_upper w = true.
Proof.
  intros (line & _ & ->)%elem_of_loadProfanityWords. apply no_upper_ToLower.
Qed.

End LetterCase.



(** [C10] After the word list is loaded, every token of the set is non-empty,
    has no white space around it and is its own lower-casing; and two word
    lists whose lines spell the same entries, up to letter case and
    surrounding white space, load the same set, so the vocabulary check
    gives the same result on every text. *)
Theorem loaded_words_normalised (lines lines' : list string)
    (scanErr scanErr' : option string) :
  Forall2 same_entry lines lines' ->
  (forall w, w ∈ (loadProfanityWords (Opened lines scanErr)).1 ->
             w <> "" /\ TrimSpace w = w /\ ToLower w = w) /\
  (loadProfanityWords (Opened lines' scanErr')).1 =
    (loadProfanityWords (Opened lines scanErr)).1 /\
  (forall text,
     containsProfanity (loadProfanityWords (Opened lines' scanErr')).1 text =
     containsProfanity (loadProfanityWords (Opened lines scanErr)).1 text).
Proof.
  intros Hsame.
  assert ((loadProfanityWords (Opened lines' scanErr')).1 =
          (loadProfanityWords (Opened lines scanErr)).1) as Heq.
  { simpl. symmetry. by apply same_entry_foldl. }
  split_and!; [|done|by intros text; rw Heq].
  intros w (line & Hne & ->)%elem_of_loadProfanityWords. split_and!.
  - by rw ToLower_nil_iff.
  - by rw TrimSpace_ToLower TrimSpace_idemp.
  - apply ToLower_idemp.
Qed.

Lemma loaded_words_normalised_witness :
  Forall2 same_entry ["  Damn "; ""; "heck"] ["DAMN"; "   "; "	Heck  "] /\
  containsProfanity
    (loadProfanityWords (Opened ["DAMN"; "   "; "	Heck  "] None)).1
    "what the HECK is this" = true.
Proof.
  assert (Forall2 same_entry ["  Damn "; ""; "heck"] ["DAMN"; "   "; "	Heck  "]) as H.
  { constructor; [|constructor; [|constructor; [|constructor]]].
    - exists "  ", " ", "", "", "Damn", "DAMN". split_and!; reflexivity.
    - exists "", "", "   ", "", "", "". split_and!; reflexivity.
    - exists "", "", "	", "  ", "heck", "Heck". split_and!; reflexivity. }
  split; [exact H|].
  destruct (loaded_words_normalised _ _ None None H) as (_ & _ & ->).
  by vm_compute.
Defined.

(** ** Channels *)

Section Channels.

Implicit Types (r : TranscriptResponse) (σ : gmap nat Chan).

(** On a channel of capacity 1, a first send does not wait and the value is
    then received; a second send before the receive would wait. *)
Lemma chan_round_trip r :
  chan_send (make_chan 1) r = Some (mkChan 1 [r]) /\
  chan_recv (mkChan 1 [r]) = Some (r, make_chan 1).
Proof. done. Qed.

Lemma chan_second_send_waits r r' : chan_send (mkChan 1 [r]) r' = None.
Proof. done. Qed.

(** The channel that the handler makes for a job is new in the store, empty
    and of capacity 1. *)
Lemma handler_submit_fresh σ (videoID langParam : string) :
  σ !! Response (handler_submit σ videoID langParam).2 = None /\
  (handler_submit σ videoID langParam).1
    !! Response (handler_submit σ videoID langParam).2 = Some (make_chan 1) /\
  JobVideoID (handler_submit σ videoID langParam).2 = videoID.
Proof.
  rw /handler_submit /=. split_and!; [|by rw lookup_insert_eq|done].
  apply not_elem_of_dom, is_fresh.
Qed.

End Channels.

(** ** Counting events *)

Section Counting.

Implicit Types (p : Event -> bool) (tr : list Event).

Lemma count_app p tr1 tr2 : count p (tr1 ++ tr2) = count p tr1 + count p tr2.
Proof. by rw /count filter_app length_app. Qed.

Lemma count_cons p e tr :
  count p (e :: tr) = (if p e then 1 else 0) + count p tr.
Proof.
  rw /count filter_cons. destruct (decide (p e = true)) as [->|H]; [done|].
  by apply not_true_is_false in H as ->.
Qed.

Lemma count_attempt_events videoID lang attempt n :
  count is_acquire (attempt_events videoID lang attempt n) = 0 /\
  count is_send (attempt_events videoID lang attempt n) = 0 /\
  count is_fetch (attempt_events videoID lang attempt n) = n.
Proof.
  revert attempt. induction n as [|n IH]; intros attempt; [done|].
  destruct (IH (S attempt)) as (A & S' & F).
  rw /= !count_app !count_cons A S' F /=. by destruct (0 <? attempt)%nat.
Qed.

Lemma count_job_events videoID (tried : list (string * nat)) :
  count is_acquire (job_events videoID tried) = List.length tried /\
  count is_send (job_events videoID tried) = 0.
Proof.
  induction tried as [|[lang n] tried [IHa IHs]]; [done|].
  destruct (count_attempt_events videoID lang 0 n) as (A & S' & _).
  by rw /= !count_cons !count_app A S' IHa IHs.
Qed.

Lemma count_send_on ch tr : count is_send tr = 0 -> count (is_send_on ch) tr = 0.
Proof.
  induction tr as [|e tr IH]; [done|]. rw !count_cons.
  by destruct e.
Qed.

End Counting.

(** ** The resolve loop *)

Arguments Contains : simpl never.
Arguments maxRetries : simpl never.
Arguments is_temporary : simpl never.
Arguments backoff : simpl never.
Arguments failure_message : simpl never.
Arguments containsProfanity : simpl never.

Section EngineFacts.

Context {Transcript : Type}.
Variable GetTranscripts : nat -> string -> list string -> FetchOutcome Transcript.
Variable Format : list Transcript -> FormatOutcome.
Variable profanityWords : gset string.

Local Abbreviation success_case := (success_case Transcript Format profanityWords).
Local Abbreviation retry_step :=
  (retry_step Transcript GetTranscripts Format profanityWords).
Local Abbreviation retry_loop :=
  (retry_loop Transcript GetTranscripts Format profanityWords).
Local Abbreviation lang_loop :=
  (lang_loop Transcript GetTranscripts Format profanityWords).
Local Abbreviation resolve :=
  (resolve Transcript GetTranscripts Format profanityWords).
Local Abbreviation worker_job :=
  (worker_job Transcript GetTranscripts Format profanityWords).
Local Abbreviation worker :=
  (worker Transcript GetTranscripts Format profanityWords).

Implicit Types (st : Run) (videoID lang : string) (job : Job).

(** What the success case leaves untouched. *)
Lemma success_case_frame t0 st :
  trace (success_case t0 st) = trace st /\
  calls (success_case t0 st) = calls st /\
  lastError (success_case t0 st) = lastError st /\
  VideoID (response (success_case t0 st)) = VideoID (response st).
Proof. rw /success_case. by destruct (Format [t0]). Qed.

(** The loop has nothing to do once [attempt] has reached [maxRetries]. *)
Lemma retry_loop_done fuel attempt videoID lang st :
  maxRetries <= attempt -> retry_loop fuel attempt videoID lang st = st.
Proof.
  intros H. destruct fuel as [|fuel]; [done|]. simpl.
  by assert ((attempt <? maxRetries)%nat = false) as -> by by apply Nat.ltb_ge.
Qed.

Lemma retry_loop_unfold fuel attempt videoID lang st :
  retry_loop (S fuel) attempt videoID lang st =
  retry_step (retry_loop fuel (S attempt) videoID lang) attempt videoID lang st.
Proof. done. Qed.

Lemma retry_step_ext (k1 k2 : Run -> Run) attempt videoID lang st :
  (forall st', k1 st' = k2 st') ->
  retry_step k1 attempt videoID lang st = retry_step k2 attempt videoID lang st.
Proof.
  intros Hk. rw /retry_step. destruct (negb _); [done|]. cbv zeta.
  destruct (GetTranscripts _ _ _) as [err|[|t0 ts]]; rw ?Hk //.
Qed.

(** Fuel beyond [maxRetries - attempt] is never used. *)
Lemma retry_loop_fuel fuel attempt videoID lang st :
  maxRetries - attempt <= fuel ->
  retry_loop (S fuel) attempt videoID lang st =
  retry_loop fuel attempt videoID lang st.
Proof.
  revert attempt st. induction fuel as [|fuel IH]; intros attempt st Hfuel.
  - rw !retry_loop_done //; lia.
  - rw !retry_loop_unfold. apply retry_step_ext. intros st'. apply IH. lia.
Qed.

(** The retry loop on one language makes between one and [maxRetries]
    attempts, sleeping before each but the first; nothing else is asked of
    the environment. *)
Lemma retry_loop_shape fuel attempt videoID lang st :
  exists n,
    n <= fuel /\ attempt + n <= Nat.max attempt maxRetries /\
    (fuel <> 0 -> attempt < maxRetries -> 1 <= n) /\
    extends st videoID lang attempt n (retry_loop fuel attempt videoID lang st).
Proof.
  revert attempt st. induction fuel as [|fuel IH]; intros attempt st.
  { exists 0. rw /extends /= app_nil_r. split_and!; [lia..|done|lia|done]. }
  destruct (decide (maxRetries <= attempt)) as [?|Hlt].
  { exists 0. rw /extends retry_loop_done // /= app_nil_r.
    split_and!; [lia..|done|lia|done]. }
  rw retry_loop_unfold /retry_step.
  assert ((attempt <? maxRetries)%nat = true) as -> by (apply Nat.ltb_lt; lia).
  cbv zeta. simpl negb. cbv iota.
  set (st1 := if (0 <? attempt)%nat then emit (EvSleep (backoff attempt)) st else st).
  set (st2 := called (emit (EvFetch videoID lang) st1)).
  assert (extends st videoID lang attempt 1 st2) as (Htr & Hc & Hv).
  { rw /extends /st2 /st1 /=. destruct (0 <? attempt)%nat; rw /= -?app_assoc /=;
      split_and!; try done; lia. }
  clearbody st2 st1.
  assert (forall st3, extends st2 videoID lang (S attempt) 0 st3 ->
            exists n, n <= S fuel /\ attempt + n <= Nat.max attempt maxRetries /\
              (S fuel <> 0 -> attempt < maxRetries -> 1 <= n) /\
              extends st videoID lang attempt n st3) as Hstop.
  { intros st3 (E1 & E2 & E3). exists 1. rw /extends E1 E2 E3 /= app_nil_r.
    split_and!; [lia..|done|lia|done]. }
  assert (forall st3, extends st2 videoID lang (S attempt) 0 st3 ->
            exists n, n <= S fuel /\ attempt + n <= Nat.max attempt maxRetries /\
              (S fuel <> 0 -> attempt < maxRetries -> 1 <= n) /\
              extends st videoID lang attempt n
                (retry_loop fuel (S attempt) videoID lang st3)) as Hgo.
  { intros st3 (E1 & E2 & E3).
    destruct (IH (S attempt) st3) as (n & ? & ? & _ & T & C & V).
    exists (S n). rw /extends T C V E1 E2 E3 Htr Hc Hv /= app_nil_r -app_assoc.
    split_and!; [lia..|by rw -app_assoc|lia|done]. }
  assert (extends st2 videoID lang (S attempt) 0 st2) as Hrefl.
  { rw /extends /= app_nil_r. split_and!; [done|lia|done]. }
  destruct (GetTranscripts (calls st1) videoID [lang]) as [err|[|t0 ts]].
  - destruct (is_temporary (ToLower err)); [by apply Hgo|].
    destruct (Contains (ToLower err) "captions not found"); [by apply Hstop|].
    destruct (attempt <? maxRetries - 1)%nat; [by apply Hgo|by apply Hstop].
  - by apply Hgo.
  - apply Hstop. destruct (success_case_frame t0 st2) as (T & C & _ & V).
    rw /extends T C V /= app_nil_r. split_and!; [done|lia|done].
Qed.

Lemma lang_loop_cons videoID lang (rest : list string) st :
  lang_loop videoID (lang :: rest) st =
  let st' := retry_loop maxRetries 0 videoID lang (emit EvAcquire st) in
  if foundTranscript st' then st' else lang_loop videoID rest st'.
Proof. done. Qed.

(** The language loop tries a prefix of the list, each language with its
    wait on the rate limiter followed by one to [maxRetries] attempts; it
    tries the whole list unless a transcript is found. *)
Lemma lang_loop_shape videoID (langs : list string) st :
  exists tried : list (string * nat),
    tried.*1 `prefix_of` langs /\
    Forall (fun p => 1 <= p.2 <= maxRetries) tried /\
    trace (lang_loop videoID langs st) = trace st ++ job_events videoID tried /\
    VideoID (response (lang_loop videoID langs st)) = VideoID (response st) /\
    (foundTranscript (lang_loop videoID langs st) = false -> tried.*1 = langs).
Proof.
  revert st. induction langs as [|lang rest IH]; intros st.
  { exists []. rw /= app_nil_r. split_and!; done. }
  rw lang_loop_cons. cbv zeta.
  destruct (retry_loop_shape maxRetries 0 videoID lang (emit EvAcquire st))
    as (n & _ & Hn & H1 & T & _ & V).
  assert (1 <= n <= maxRetries) as Hbound.
  { split; [apply H1; rw /maxRetries; lia|lia]. }
  set (st2 := retry_loop maxRetries 0 videoID lang (emit EvAcquire st)) in *.
  clearbody st2. simpl in T, V.
  destruct (foundTranscript st2) eqn:Hfound.
  - exists [(lang, n)]. rw T /= app_nil_r -app_assoc. split_and!; try done.
    + by apply prefix_cons, prefix_nil.
    + by apply Forall_singleton.
    + by rw Hfound.
  - destruct (IH st2) as (tried & Hp & Hf & T' & V' & Hall).
    exists ((lang, n) :: tried). rw T' V' T /= -!app_assoc. split_and!; try done.
    + by apply prefix_cons.
    + by apply Forall_cons.
    + intros E. f_equal. by apply Hall.
Qed.

Lemma finish_frame videoID (langs : list string) st :
  trace (finish videoID langs st) = trace st /\
  calls (finish videoID langs st) = calls st /\
  VideoID (response (finish videoID langs st)) = VideoID (response st) /\
  foundTranscript (finish videoID langs st) = foundTranscript st.
Proof. rw /finish. by destruct (_ && _). Qed.

(** The trace of a job before the send. *)
Lemma resolve_shape job calls0 :
  exists tried : list (string * nat),
    tried.*1 `prefix_of` languagesToTry (Languages job) /\
    Forall (fun p => 1 <= p.2 <= maxRetries) tried /\
    trace (resolve job calls0) = job_events (JobVideoID job) tried /\
    VideoID (response (resolve job calls0)) = JobVideoID job /\
    (foundTranscript (resolve job calls0) = false ->
     tried.*1 = languagesToTry (Languages job)).
Proof.
  rw /resolve.
  set (st0 := mkRun _ _ _ _ _).
  destruct (finish_frame (JobVideoID job) (languagesToTry (Languages job))
              (lang_loop (JobVideoID job) (languagesToTry (Languages job)) st0))
    as (-> & _ & -> & ->).
  destruct (lang_loop_shape (JobVideoID job) (languagesToTry (Languages job)) st0)
    as (tried & ? & ? & T & V & ?).
  exists tried. by rw T V.
Qed.

(** Three errors, the first two of which keep the loop going: three
    attempts, and the last error is remembered. *)
Lemma retry_loop_errors videoID lang st (e0 e1 e2 : string) :
  GetTranscripts (calls st) videoID [lang] = FetchErr e0 ->
  GetTranscripts (calls st + 1) videoID [lang] = FetchErr e1 ->
  GetTranscripts (calls st + 2) videoID [lang] = FetchErr e2 ->
  keeps_retrying e0 = true -> keeps_retrying e1 = true ->
  retry_loop maxRetries 0 videoID lang st = after_three videoID lang (Some e2) st.
Proof.
  intros H0 H1 H2 K0 K1.
  replace (calls st + 1) with (S (calls st)) in H1 by lia.
  replace (calls st + 2) with (S (S (calls st))) in H2 by lia.
  assert (forall fuel attempt e (st' : Run),
             keeps_retrying e = true -> attempt < 2 ->
             GetTranscripts (calls (if (0 <? attempt)%nat
                                    then emit (EvSleep (backoff attempt)) st'
                                    else st')) videoID [lang] = FetchErr e ->
             retry_loop (S fuel) attempt videoID lang st' =
             retry_loop fuel (S attempt) videoID lang
               (set_lastError e (called (emit (EvFetch videoID lang)
                  (if (0 <? attempt)%nat then emit (EvSleep (backoff attempt)) st'
                   else st'))))) as Hstep.
  { intros fuel attempt e st' K Hlt He. rw retry_loop_unfold /retry_step.
    assert ((attempt <? maxRetries)%nat = true) as ->
      by (apply Nat.ltb_lt; rw /maxRetries; lia).
    cbv zeta. simpl negb. cbv iota. rw He.
    rw /keeps_retrying in K. destruct (is_temporary (ToLower e)); [done|].
    simpl in K. apply negb_true_iff in K as ->.
    by assert ((attempt <? maxRetries - 1)%nat = true) as ->
      by (apply Nat.ltb_lt; rw /maxRetries; lia). }
  rw {1}/maxRetries (Hstep _ 0 e0) //; [lia|].
  rw (Hstep _ 1 e1) //; [lia|].
  rw retry_loop_unfold /retry_step /maxRetries /= H2.
  rw /after_three. destruct st as [r le f c tr].
  assert (S (S (S c)) = c + 3) as E by (clear; lia).
  destruct (is_temporary (ToLower e2));
    [|destruct (Contains (ToLower e2) "captions not found")];
    cbv [set_lastError called emit response lastError foundTranscript calls trace];
    by rw E -!app_assoc.
Qed.

(** Three empty results: three attempts as well. *)
Lemma retry_loop_empty videoID lang st :
  (forall k, k < maxRetries ->
             GetTranscripts (calls st + k) videoID [lang] = FetchOk []) ->
  retry_loop maxRetries 0 videoID lang st =
  after_three videoID lang (lastError st) st.
Proof.
  intros H.
  pose proof (H 0 ltac:(rw /maxRetries; lia)) as H0.
  pose proof (H 1 ltac:(rw /maxRetries; lia)) as H1.
  pose proof (H 2 ltac:(rw /maxRetries; lia)) as H2.
  replace (calls st + 0) with (calls st) in H0 by lia.
  replace (calls st + 1) with (S (calls st)) in H1 by lia.
  replace (calls st + 2) with (S (S (calls st))) in H2 by lia.
  rw /maxRetries !retry_loop_unfold /retry_step /maxRetries /= H0 /= H1 /= H2.
  rw /after_three. destruct st as [r le f c tr].
  assert (S (S (S c)) = c + 3) as E by (clear; lia).
  cbv [called emit response lastError foundTranscript calls trace].
  by rw E -!app_assoc.
Qed.

(** A language whose three attempts find nothing is left behind: the loop
    goes on with the next language. *)
Lemma lang_loop_skip videoID lang (rest : list string) st (last : option string) :
  foundTranscript st = false ->
  retry_loop maxRetries 0 videoID lang (emit EvAcquire st) =
    after_three videoID lang last (emit EvAcquire st) ->
  lang_loop videoID (lang :: rest) st =
    lang_loop videoID rest (after_three videoID lang last (emit EvAcquire st)).
Proof.
  intros Hf E. rw lang_loop_cons. cbv zeta. rw E.
  by assert (foundTranscript (after_three videoID lang last (emit EvAcquire st)) = false)
    as -> by done.
Qed.


(** One iteration of the worker on a job whose response channel is empty
    with capacity 1: the send does not wait, and it is the only send. *)
Lemma worker_job_sends_once (w : World) job :
  chans w !! Response job = Some (make_chan 1) ->
  exists w' r tr,
    worker_job w job = Some w' /\
    VideoID r = JobVideoID job /\
    chans w' = <[Response job := mkChan 1 [r]]> (chans w) /\
    events w' = events w ++ tr ++ [EvSend (Response job) r] /\
    count is_send tr = 0.
Proof.
  intros Hch. rw /worker_job Hch /=.
  destruct (resolve_shape job (ncalls w)) as (tried & _ & _ & T & V & _).
  destruct (count_job_events (JobVideoID job) tried) as [_ Hs].
  eexists _, (response (resolve job (ncalls w))), (trace (resolve job (ncalls w))).
  split_and!; [done..|]. by rw T.
Qed.

(** [C5] A worker that takes, one after the other, jobs whose response
    channels are distinct, empty and of capacity 1, as their callers made
    them, completes every iteration (no send waits), and sends exactly one
    Result per job, on that job's channel: after the run each of these
    channels holds one Result, for the job's video, and the worker has made
    as many sends as it took jobs. *)
Theorem one_result_per_job (w : World) (jobs : list Job) :
  NoDup (Response <$> jobs) ->
  (forall job, job ∈ jobs -> chans w !! Response job = Some (make_chan 1)) ->
  exists w',
    worker w jobs = Some w' /\
    (forall job, job ∈ jobs ->
       exists r, VideoID r = JobVideoID job /\
                 chans w' !! Response job = Some (mkChan 1 [r]) /\
                 count (is_send_on (Response job)) (events w') =
                   count (is_send_on (Response job)) (events w) + 1) /\
    (forall ch, ch ∉ Response <$> jobs ->
       chans w' !! ch = chans w !! ch /\
       count (is_send_on ch) (events w') = count (is_send_on ch) (events w)) /\
    count is_send (events w') = count is_send (events w) + List.length jobs.
Proof.
  revert w. induction jobs as [|job rest IH]; intros w Hnd Hch.
  { exists w. split_and!; [done| |done|simpl; lia].
    by intros job ?%elem_of_nil. }
  apply NoDup_cons in Hnd as [Hnotin Hnd].
  destruct (worker_job_sends_once w job) as (w1 & r & tr & Hw & Hv & Hc & He & Hs).
  { apply Hch. left. }
  destruct (IH w1 Hnd) as (w' & Hw' & Hjobs & Hframe & Hcount).
  { intros job' Hin. rw Hc lookup_insert_ne; [|apply Hch; by right].
    intros E. apply Hnotin. rw E. by apply list_elem_of_fmap_2. }
  assert (forall ch, count (is_send_on ch) (events w1) =
                     count (is_send_on ch) (events w) +
                     (if bool_decide (Response job = ch) then 1 else 0)) as Hev.
  { intros ch. rw He !count_app (count_send_on ch tr) // count_cons /=.
    rw /count /=. lia. }
  exists w'. split_and!.
  - by rw /= Hw.
  - intros job' [->|Hin]%elem_of_cons.
    + destruct (Hframe (Response job) Hnotin) as [Hl Hn].
      exists r. split_and!; [done| |].
      * by rw Hl Hc lookup_insert_eq.
      * by rw Hn Hev bool_decide_true.
    + destruct (Hjobs job' Hin) as (r' & ? & ? & Hn).
      exists r'. split_and!; [done..|].
      rw Hn Hev bool_decide_false; [|lia].
      intros E. apply Hnotin. rw E. by apply list_elem_of_fmap_2.
  - intros ch Hout. rw fmap_cons in Hout.
    apply not_elem_of_cons in Hout as [Hne Hout].
    destruct (Hframe ch Hout) as [Hl Hn]. split.
    + by rw Hl Hc lookup_insert_ne.
    + by rw Hn Hev bool_decide_false.
  - rw Hcount He !count_app Hs count_cons /=. rw /count /=. lia.
Qed.

(** [C6] In the language loop, a language whose [maxRetries] = 3 upstream
    attempts all fail with a temporary (timeout, connection, network,
    temporary) error gets exactly these three attempts after one wait on the
    rate limiter, with a sleep of 2 s before the second and of 4 s before
    the third, and the loop then goes on with the next language. *)
Theorem transient_language_retried videoID lang (rest : list string) st :
  foundTranscript st = false ->
  (forall k, k < maxRetries ->
     exists err, GetTranscripts (calls st + k) videoID [lang] = FetchErr err /\
                 is_temporary (ToLower err) = true) ->
  exists st',
    lang_loop videoID (lang :: rest) st = lang_loop videoID rest st' /\
    trace st' = trace st ++
      [EvAcquire; EvFetch videoID lang;
       EvSleep (2 * Second); EvFetch videoID lang;
       EvSleep (4 * Second); EvFetch videoID lang] /\
    (2 * Second < 4 * Second)%Z /\
    calls st' = calls st + maxRetries /\
    foundTranscript st' = false /\
    response st' = response st.
Proof.
  intros Hf H.
  destruct (H 0 ltac:(rw /maxRetries; lia)) as (e0 & H0 & T0).
  destruct (H 1 ltac:(rw /maxRetries; lia)) as (e1 & H1 & T1).
  destruct (H 2 ltac:(rw /maxRetries; lia)) as (e2 & H2 & T2).
  rw Nat.add_0_r in H0.
  exists (after_three videoID lang (Some e2) (emit EvAcquire st)).
  split_and!; [|by rw /= -app_assoc|done|done|done|done].
  apply lang_loop_skip; [done|].
  apply (retry_loop_errors videoID lang _ e0 e1 e2); try done.
  - by rw /keeps_retrying T0.
  - by rw /keeps_retrying T1.
Qed.

Lemma is_forbidden_keeps_retrying (err : string) :
  is_forbidden err = true -> keeps_retrying err = true.
Proof.
  rw /is_forbidden /keeps_retrying. intros [Hc _]%andb_prop.
  rw Hc. apply orb_true_r.
Qed.

Lemma failure_message_forbidden videoID (langs : list string) (err : string) :
  is_forbidden err = true ->
  failure_message videoID langs (Some err) = msg_private videoID \/
  failure_message videoID langs (Some err) = msg_unavailable videoID.
Proof.
  rw /is_forbidden /failure_message. intros [Hc Hp]%andb_prop.
  apply negb_true_iff in Hc. rw Hc.
  destruct (Contains (ToLower err) "private"); [by left|].
  simpl in Hp. rw Hp. by right.
Qed.

Lemma failure_message_nonempty videoID (langs : list string) (last : option string) :
  failure_message videoID langs last <> "".
Proof.
  rw /failure_message. destruct last as [err|]; [|done].
  destruct (Contains _ "captions not found"); [done|].
  destruct (Contains _ "private"); [done|].
  by destruct (Contains _ "unavailable").
Qed.

(** When every upstream call fails with a Forbidden error, the language
    loop goes through the whole list, three attempts on each language. *)
Lemma lang_loop_forbidden videoID (langs : list string) st :
  (forall n lang, exists err,
      GetTranscripts n videoID [lang] = FetchErr err /\ is_forbidden err = true) ->
  foundTranscript st = false ->
  trace (lang_loop videoID langs st) =
    trace st ++ job_events videoID ((fun lang => (lang, maxRetries)) <$> langs) /\
  foundTranscript (lang_loop videoID langs st) = false /\
  response (lang_loop videoID langs st) = response st /\
  (langs <> [] -> exists err, lastError (lang_loop videoID langs st) = Some err /\
                              is_forbidden err = true).
Proof.
  intros Hup. revert st. induction langs as [|lang rest IH]; intros st Hf.
  { rw /= app_nil_r. split_and!; done. }
  set (st1 := emit EvAcquire st).
  destruct (Hup (calls st1) lang) as (e0 & H0 & F0).
  destruct (Hup (calls st1 + 1) lang) as (e1 & H1 & F1).
  destruct (Hup (calls st1 + 2) lang) as (e2 & H2 & F2).
  rw (lang_loop_skip videoID lang rest st (Some e2)) //.
  { apply (retry_loop_errors videoID lang _ e0 e1 e2); try done;
      by apply is_forbidden_keeps_retrying. }
  destruct (IH (after_three videoID lang (Some e2) st1)) as (T & F & R & L); [done|].
  rw T F R. split_and!; [|done|done|].
  - by rw /= -!app_assoc.
  - intros _. destruct rest as [|lang' rest]; [|by apply L].
    exists e2. by split.
Qed.

(** [C1] (amended) A Forbidden error does not end the language loop.  When
    every upstream call of a job fails with a Forbidden error, the worker
    goes through the whole fall-back list in order, waiting once on the rate
    limiter and making [maxRetries] = 3 attempts for each language, and the
    job gets a failure Result: no transcript found, no verdict, and an error
    message, which is the "private" or the "unavailable" one when the job
    has a language. *)
Theorem forbidden_tries_every_language job calls0 :
  (forall n lang, exists err,
      GetTranscripts n (JobVideoID job) [lang] = FetchErr err /\
      is_forbidden err = true) ->
  trace (resolve job calls0) =
    job_events (JobVideoID job)
      ((fun lang => (lang, maxRetries)) <$> languagesToTry (Languages job)) /\
  fetched (trace (resolve job calls0)) =
    languagesToTry (Languages job) ≫= (fun lang => [lang; lang; lang]) /\
  foundTranscript (resolve job calls0) = false /\
  Profanity (response (resolve job calls0)) = false /\
  Error (response (resolve job calls0)) <> "" /\
  (Languages job <> [] ->
   Error (response (resolve job calls0)) = msg_private (JobVideoID job) \/
   Error (response (resolve job calls0)) = msg_unavailable (JobVideoID job)).
Proof.
  intros Hup. rw /resolve.
  set (st0 := mkRun _ _ _ _ _). set (langs := languagesToTry (Languages job)).
  destruct (lang_loop_forbidden (JobVideoID job) langs st0 Hup eq_refl)
    as (T & F & R & L).
  assert (finish (JobVideoID job) langs (lang_loop (JobVideoID job) langs st0) =
          set_Error (failure_message (JobVideoID job) langs
                       (lastError (lang_loop (JobVideoID job) langs st0)))
                    (lang_loop (JobVideoID job) langs st0)) as ->.
  { by rw /finish F R. }
  simpl. rw T R F /=. split_and!; [done| |done|done| |].
  - clear. induction langs as [|lang rest IH]; [done|]. by rw /= IH.
  - apply failure_message_nonempty.
  - intros Hne. destruct L as (err & -> & Hforb).
    + rw /langs. destruct (Languages job) as [|l [|l' ls]]; [done| |done].
      rw /languagesToTry. by destruct (decide (l = "en")).
    + by apply failure_message_forbidden.
Qed.

(** A language whose three attempts all return no transcript and no error
    gets three attempts, with the two back-off sleeps, before the loop goes
    on with the next language. *)
Lemma empty_language_retried videoID lang (rest : list string) st :
  foundTranscript st = false ->
  (forall k, k < maxRetries ->
     GetTranscripts (calls st + k) videoID [lang] = FetchOk []) ->
  lang_loop videoID (lang :: rest) st =
  lang_loop videoID rest
    (after_three videoID lang (lastError st) (emit EvAcquire st)).
Proof.
  intros Hf H. apply lang_loop_skip; [done|].
  by apply (retry_loop_empty videoID lang (emit EvAcquire st)).
Qed.

End EngineFacts.

(** ** The language list *)

(** [C2] (counterexample) A caller that supplies the explicit tag ["en"]
    does not get the single-element list: the worker expands it. *)
Lemma explicit_en_is_expanded :
  handler_languages "en" = ["en"] /\
  languagesToTry (handler_languages "en") <> ["en"].
Proof. split; [done|]. by vm_compute. Qed.

(** [C2] (amended) For an explicit tag, the list the worker goes through is
    the single tag, unless the tag is ["en"]: the job is then the same as
    with no tag, and the list is the fall-back list. *)
Theorem explicit_tag_list (tag : string) :
  tag <> "" ->
  languagesToTry (handler_languages tag) =
    if decide (tag = "en") then fallbackLanguages else [tag].
Proof.
  intros Hne. by rw /handler_languages decide_False.
Qed.

Lemma explicit_tag_list_witness :
  languagesToTry (handler_languages "fr") = ["fr"].
Proof. by apply (explicit_tag_list "fr"). Defined.

(** [C8] A job submitted with no language tag carries ["en"], and the list
    the worker goes through is then the fixed fall-back list, which has no
    duplicate and starts with ["en"]. *)
Theorem default_tag_list (σ : gmap nat Chan) (videoID : string) :
  Languages (handler_submit σ videoID "").2 = ["en"] /\
  languagesToTry (Languages (handler_submit σ videoID "").2) = fallbackLanguages /\
  NoDup fallbackLanguages /\
  head fallbackLanguages = Some "en".
Proof.
  split_and!; [done|done| |done].
  apply (bool_decide_unpack _). by vm_compute.
Qed.

(** ** Runs in the example environments *)

(** [C1] (counterexample) With an upstream that answers every call with
    "video is private", the job submitted with no language tag calls the
    upstream for ["en-US"] after the Forbidden answer for ["en"]. *)
Lemma forbidden_does_not_short_circuit :
  ~ forbidden_short_circuits upstream_private format_text example_words
      (example_job "abc123" "").
Proof.
  intros H.
  assert ("en-US" = "en") as E; [|done].
  apply (H 0 3 "en" "en-US" "video is private"); [by vm_compute|done|by vm_compute|lia|by vm_compute].
Qed.

Lemma forbidden_tries_every_language_witness :
  fetched (trace (resolve string upstream_private format_text example_words
                    (example_job "abc123" "fr") 0)) = ["fr"; "fr"; "fr"] /\
  Error (response (resolve string upstream_private format_text example_words
                     (example_job "abc123" "fr") 0)) = msg_private "abc123".
Proof.
  destruct (forbidden_tries_every_language upstream_private format_text
              example_words (example_job "abc123" "fr") 0) as (_ & F & _ & _ & _ & E).
  - intros n lang. exists "video is private". split; [done|by vm_compute].
  - split; [exact F|]. destruct E as [E|E]; [done|exact E|].
    exfalso. revert E. by vm_compute.
Defined.

(** [C3] With an upstream that answers every call with no error and no
    transcript, the job for the explicit tag ["fr"] calls the upstream three
    times for ["fr"], sleeping 2 s and 4 s in between, before it gives up. *)
Theorem empty_result_is_retried :
  trace (resolve string upstream_empty format_text example_words
           (example_job "abc123" "fr") 0) =
    [EvAcquire; EvFetch "abc123" "fr";
     EvSleep (2 * Second); EvFetch "abc123" "fr";
     EvSleep (4 * Second); EvFetch "abc123" "fr"] /\
  response (resolve string upstream_empty format_text example_words
              (example_job "abc123" "fr") 0) =
    mkResponse "abc123" false (msg_none_found "abc123" ["fr"]).
Proof. by vm_compute. Qed.

(** [C4] With a formatter that fails on the transcript of ["en"] and an
    upstream that has a transcript for every language, the job submitted
    with no language tag goes on to ["en-US"] after the failure, finds a
    flagged word there, and delivers a Result with both the verdict and the
    error of the first language; the handler answers with the error. *)
Theorem verdict_with_stale_error :
  trace (resolve string upstream_echo format_but_en example_words
           (example_job "abc123" "") 0) =
    [EvAcquire; EvFetch "abc123" "en"; EvAcquire; EvFetch "abc123" "en-US"] /\
  foundTranscript (resolve string upstream_echo format_but_en example_words
                     (example_job "abc123" "") 0) = true /\
  response (resolve string upstream_echo format_but_en example_words
              (example_job "abc123" "") 0) =
    mkResponse "abc123" true "failed to format transcript: boom" /\
  handler_reply (mkResponse "abc123" true "failed to format transcript: boom") =
    ReplyError StatusInternalServerError "failed to format transcript: boom".
Proof. by vm_compute. Qed.

Lemma one_result_per_job_witness :
  exists w',
    worker string upstream_echo format_text example_words
      (mkWorld two_requests.1 0 []) two_requests.2 = Some w' /\
    count is_send (events w') = 2.
Proof.
  destruct (one_result_per_job upstream_echo format_text example_words
              (mkWorld two_requests.1 0 []) two_requests.2)
    as (w' & Hw & _ & _ & Hn).
  - apply (bool_decide_unpack _). by vm_compute.
  - apply Forall_forall. apply (bool_decide_unpack _). by vm_compute.
  - by exists w'.
Defined.

Lemma transient_language_retried_witness :
  exists st',
    lang_loop string upstream_timeout format_text example_words "xyz" ["en"; "fr"]
      (mkRun (mkResponse "xyz" false "") None false 0 []) =
    lang_loop string upstream_timeout format_text example_words "xyz" ["fr"] st' /\
    trace st' = [EvAcquire; EvFetch "xyz" "en";
                 EvSleep 2000000000; EvFetch "xyz" "en";
                 EvSleep 4000000000; EvFetch "xyz" "en"].
Proof.
  destruct (transient_language_retried upstream_timeout format_text example_words
              "xyz" "en" ["fr"] (mkRun (mkResponse "xyz" false "") None false 0 []))
    as (st' & Hl & Ht & _).
  - done.
  - intros k _. exists "connection timeout". split; [done|by vm_compute].
  - by exists st'.
Defined.

(** * Further properties *)

(** ** The word list and the check *)

Section VocabularyMore.

Implicit Types (pw : gset string) (text tok w line : string).

Lemma all_space_ToLower (s : string) : all_space (ToLower s) = all_space s.
Proof.
  induction s as [|c s IH]; [done|].
  by rw /= toLowerByte_isSpace IH.
Qed.

Lemma fields_from_all_space (s tok : string) :
  all_space s = true -> fields_from tok s = flush tok.
Proof.
  revert tok. induction s as [|c s IH]; intros tok; [done|].
  intros [Hc Hs]%andb_prop. rw /= Hc (IH "") //. apply app_nil_r.
Qed.

Lemma range_words_app pw (l1 l2 : list string) :
  range_words pw (l1 ++ l2) = range_words pw l1 || range_words pw l2.
Proof.
  induction l1 as [|x l1 IH]; [done|]. simpl.
  by destruct (decide (x ∈ pw)).
Qed.

Lemma fields_from_sep (a b tok : string) (c : ascii) :
  isSpace c = true ->
  fields_from tok (a +:+ String c b) = fields_from tok a ++ Fields b.
Proof.
  intros Hc. revert tok. induction a as [|x a IH]; intros tok.
  - by rw str_app_nil_l /= Hc.
  - rw str_app_cons /=. destruct (isSpace x); [|by apply IH].
    by rw (IH "") app_assoc.
Qed.

Lemma whole_word_no_space text tok : whole_word text tok -> no_space tok = true.
Proof. by intros (_ & ? & _). Qed.

(** [X1] The set built by [loadProfanityWords] from a file that opens holds
    exactly the non-blank lines, trimmed and lower-cased, whatever their
    order and repetitions, and the error returned is the scanner's; when
    the file does not open the set is empty and the error is the one of
    [os.Open]. *)
Theorem loadProfanityWords_spec (lines : list string) (scanErr : option string)
    (err : string) :
  (forall w, w ∈ (loadProfanityWords (Opened lines scanErr)).1 <->
             exists line, line ∈ lines /\ TrimSpace line <> "" /\
                          w = ToLower (TrimSpace line)) /\
  (loadProfanityWords (Opened lines scanErr)).2 = scanErr /\
  loadProfanityWords (OpenFails err) = (∅, Some err).
Proof.
  split_and!; [|done..]. intros w. simpl. rw elem_of_load_lines. split.
  - by intros [?%not_elem_of_empty|?].
  - by right.
Qed.



(** [X3] An entry of the set that is empty, has white space inside or has
    an upper-case letter never matches: the check gives the same result
    without it.  A word-list line of several words is such an entry. *)
Theorem unmatchable_entry_is_dead pw w text :
  w = "" \/ no_space w = false \/ ToLower w <> w ->
  containsProfanity (pw ∖ {[ w ]}) text = containsProfanity pw text.
Proof.
  intros Hw.
  assert (forall tok, whole_word text tok -> ToLower tok <> w) as Hne.
  { intros tok (Hnil & Hns & _) <-. destruct Hw as [Hw|[Hw|Hw]].
    - apply Hnil. by apply ToLower_nil_iff.
    - rw ToLower_no_space in Hw. congruence.
    - by rw ToLower_idemp in Hw. }
  apply eq_true_iff_eq. rw !containsProfanity_spec. split.
  - intros (tok & Htok & Hin%elem_of_difference). exists tok. by destruct Hin.
  - intros (tok & Htok & Hin). exists tok. split; [done|].
    apply elem_of_difference. split; [done|].
    rw elem_of_singleton. by apply Hne.
Qed.

Lemma unmatchable_entry_is_dead_witness :
  containsProfanity
    ((loadProfanityWords (Opened ["son of a gun"; "heck"] None)).1
       ∖ {[ "son of a gun" ]}) "you son of a gun" =
  containsProfanity (loadProfanityWords (Opened ["son of a gun"; "heck"] None)).1
    "you son of a gun".
Proof.
  apply (unmatchable_entry_is_dead _ "son of a gun" "you son of a gun").
  right. left. by vm_compute.
Defined.

(** [X4] With an empty set, or on a text that is empty or all white space,
    the check is false. *)
Theorem nothing_to_flag pw text :
  pw = ∅ \/ all_space text = true ->
  containsProfanity pw text = false.
Proof.
  intros H. apply not_true_is_false. rw containsProfanity_spec.
  intros (tok & Htok & Hin). destruct H as [->|Hs].
  - by apply not_elem_of_empty in Hin.
  - apply elem_of_Fields in Htok. rw /Fields fields_from_all_space // in Htok.
    by apply elem_of_nil in Htok.
Qed.

Lemma nothing_to_flag_witness :
  containsProfanity example_words "  	 " = false.
Proof. apply (nothing_to_flag example_words "  	 "). right. by vm_compute. Defined.

(** [X5] The check of two texts joined by a white-space byte is the
    disjunction of the checks of the two texts. *)
Theorem containsProfanity_join pw (a b : string) (c : ascii) :
  isSpace c = true ->
  containsProfanity pw (a +:+ String c b) =
  containsProfanity pw a || containsProfanity pw b.
Proof.
  intros Hc. rw /containsProfanity ToLower_app /= /Fields fields_from_sep.
  - by rw toLowerByte_isSpace.
  - apply range_words_app.
Qed.

Lemma containsProfanity_join_witness :
  containsProfanity example_words ("well" +:+ String " " "heck") =
  containsProfanity example_words "well" || containsProfanity example_words "heck".
Proof. by apply (containsProfanity_join example_words "well" "heck" " "). Defined.

End VocabularyMore.

(** ** The resolve loop, further *)

Section EngineMore.

Context {Transcript : Type}.
Variable GetTranscripts : nat -> string -> list string -> FetchOutcome Transcript.
Variable Format : list Transcript -> FormatOutcome.
Variable profanityWords : gset string.

Local Abbreviation success_case := (success_case Transcript Format profanityWords).
Local Abbreviation retry_step :=
  (retry_step Transcript GetTranscripts Format profanityWords).
Local Abbreviation retry_loop :=
  (retry_loop Transcript GetTranscripts Format profanityWords).
Local Abbreviation lang_loop :=
  (lang_loop Transcript GetTranscripts Format profanityWords).
Local Abbreviation resolve :=
  (resolve Transcript GetTranscripts Format profanityWords).
Local Abbreviation worker_job :=
  (worker_job Transcript GetTranscripts Format profanityWords).
Local Abbreviation getTranscriptHandler :=
  (getTranscriptHandler Transcript GetTranscripts Format profanityWords).
Local Abbreviation attempt_keeps :=
  (attempt_keeps GetTranscripts Format profanityWords).
Local Abbreviation last_error := (last_error GetTranscripts).
Local Abbreviation verdict_inv :=
  (verdict_inv GetTranscripts Format profanityWords).
Local Abbreviation error_inv := (error_inv GetTranscripts).

Implicit Types (st : Run) (videoID lang : string) (job : Job) (P : Run -> Prop).

(** A property kept by the four cases of an attempt is kept by the retry
    loop. *)
Lemma retry_loop_inv P videoID lang :
  attempt_keeps P videoID lang ->
  forall fuel attempt st, P st -> P (retry_loop fuel attempt videoID lang st).
Proof.
  intros (Hsleep & Herr & Hempty & Hok). induction fuel as [|fuel IH]; [done|].
  intros attempt st HP.
  rw (retry_loop_unfold GetTranscripts Format profanityWords) /retry_step.
  destruct (negb _); [done|]. cbv zeta.
  set (st1 := if (0 <? attempt)%nat then emit (EvSleep (backoff attempt)) st else st).
  assert (P st1) as HP1.
  { rw /st1. destruct (0 <? attempt)%nat; [by apply Hsleep|done]. }
  clearbody st1.
  destruct (GetTranscripts (calls st1) videoID [lang]) as [err|[|t0 ts]] eqn:E.
  - specialize (Herr st1 err HP1 E).
    destruct (is_temporary (ToLower err)); [by apply IH|].
    destruct (Contains (ToLower err) "captions not found"); [done|].
    destruct (attempt <? maxRetries - 1)%nat; [by apply IH|done].
  - apply IH. by apply Hempty.
  - by apply (Hok st1 t0 ts).
Qed.

(** A property kept by the wait on the rate limiter and by the attempts on
    every language of the list is kept by the language loop. *)
Lemma lang_loop_inv P videoID (langs : list string) :
  (forall st, P st -> P (emit EvAcquire st)) ->
  (forall lang, lang ∈ langs -> attempt_keeps P videoID lang) ->
  forall st, P st -> P (lang_loop videoID langs st).
Proof.
  intros Hacq. induction langs as [|lang rest IH]; intros Hatt st HP; [done|].
  rw (lang_loop_cons GetTranscripts Format profanityWords). cbv zeta.
  set (st' := retry_loop maxRetries 0 videoID lang (emit EvAcquire st)).
  assert (P st') as HP'.
  { apply retry_loop_inv; [apply Hatt; left|by apply Hacq]. }
  clearbody st'. destruct (foundTranscript st'); [done|].
  apply IH; [|done]. intros lang' Hin. apply Hatt. by right.
Qed.

Lemma count_snoc (p : Event -> bool) (tr : list Event) (e : Event) :
  count p (tr ++ [e]) = count p tr + (if p e then 1 else 0).
Proof. rw count_app count_cons /count /=. lia. Qed.

(** The number of upstream calls made is the number of fetch events. *)
Lemma resolve_calls job calls0 :
  calls (resolve job calls0) = calls0 + count is_fetch (trace (resolve job calls0)).
Proof.
  rw /resolve. set (st0 := mkRun _ _ _ _ _).
  set (langs := languagesToTry (Languages job)).
  destruct (finish_frame (JobVideoID job) langs (lang_loop (JobVideoID job) langs st0))
    as (-> & -> & _).
  apply (lang_loop_inv (fun st => calls st = calls0 + count is_fetch (trace st))).
  - intros st E. by rw /= count_snoc /= E Nat.add_0_r.
  - intros lang _. split_and!.
    + intros st d E. by rw /= count_snoc /= E Nat.add_0_r.
    + intros st err E _. rw /= count_snoc /= E. lia.
    + intros st E _. rw /= count_snoc /= E. lia.
    + intros st t0 ts E _.
      destruct (success_case_frame Format profanityWords t0
                  (called (emit (EvFetch (JobVideoID job) lang) st)))
        as (-> & -> & _).
      rw /= count_snoc /= E. lia.
  - rw /st0 /= /count /=. lia.
Qed.

Lemma total_sleep_app (tr1 tr2 : list Event) :
  total_sleep (tr1 ++ tr2) = (total_sleep tr1 + total_sleep tr2)%Z.
Proof.
  induction tr1 as [|e tr1 IH]; [done|]. destruct e; rw /= ?IH; lia.
Qed.

Lemma total_sleep_attempts videoID lang (n : nat) :
  n <= maxRetries ->
  (0 <= total_sleep (attempt_events videoID lang 0 n) <= 6 * Second)%Z.
Proof.
  rw /maxRetries. intros Hn.
  destruct n as [|[|[|[|n]]]]; [| | | |lia]; vm_compute; split; discriminate.
Qed.

Lemma job_events_cost videoID (tried : list (string * nat)) :
  Forall (fun p => 1 <= p.2 <= maxRetries) tried ->
  count is_fetch (job_events videoID tried) <= maxRetries * List.length tried /\
  (0 <= total_sleep (job_events videoID tried)
     <= 6 * Second * Z.of_nat (List.length tried))%Z.
Proof.
  induction 1 as [|[lang n] tried [_ Hn] _ [IHf IHs]]; [done|]. simpl in Hn.
  destruct (count_attempt_events videoID lang 0 n) as (_ & _ & F).
  pose proof (total_sleep_attempts videoID lang n Hn) as Hs.
  change (job_events videoID ((lang, n) :: tried)) with
    ([EvAcquire] ++ attempt_events videoID lang 0 n ++ job_events videoID tried).
  rw !count_app !total_sleep_app F length_cons Nat2Z.inj_succ.
  change (count is_fetch [EvAcquire]) with 0.
  change (total_sleep [EvAcquire]) with 0%Z.
  rw /maxRetries /Second in Hn IHf IHs Hs |- *. split; lia.
Qed.

(** [X6] A job costs at most one wait on the rate limiter and [maxRetries]
    upstream calls per language of its list, and at most 6 s of back-off
    sleep per language; the list of a job made by the handler has between 1
    and 33 languages. *)
Theorem job_cost_bounded job calls0 (langParam : string) :
  count is_acquire (trace (resolve job calls0))
    <= List.length (languagesToTry (Languages job)) /\
  count is_fetch (trace (resolve job calls0))
    <= maxRetries * List.length (languagesToTry (Languages job)) /\
  calls (resolve job calls0) <=
    calls0 + maxRetries * List.length (languagesToTry (Languages job)) /\
  (0 <= total_sleep (trace (resolve job calls0))
     <= 6 * Second * Z.of_nat (List.length (languagesToTry (Languages job))))%Z /\
  1 <= List.length (languagesToTry (handler_languages langParam)) <= 33.
Proof.
  destruct (resolve_shape GetTranscripts Format profanityWords job calls0)
    as (tried & Hp & Hb & T & _ & _).
  apply prefix_length in Hp. rw length_fmap in Hp.
  destruct (job_events_cost (JobVideoID job) tried Hb) as [Hf Hs].
  destruct (count_job_events (JobVideoID job) tried) as [Ha _].
  assert (1 <= List.length (languagesToTry (handler_languages langParam)) <= 33)
    as Hh.
  { rw /handler_languages /languagesToTry.
    destruct (decide (langParam = "")); [vm_compute; lia|].
    destruct (decide (langParam = "en")); vm_compute; lia. }
  rw resolve_calls T Ha. rw /maxRetries /Second in Hf Hs |- *.
  split_and!; lia.
Qed.

Lemma attempt_ok_lt (attempt k : nat) :
  attempt + k < maxRetries -> (attempt <? maxRetries)%nat = true.
Proof. intros H. apply Nat.ltb_lt. lia. Qed.

(** [X7] In the language loop, a language whose first attempt fails with a
    "captions not found" error that is not temporary gets no other attempt
    and no sleep: after one wait on the rate limiter and one upstream call
    the loop goes on with the next language, and the error is remembered. *)
Theorem captions_not_found_skips videoID lang (rest : list string) st (err : string) :
  foundTranscript st = false ->
  GetTranscripts (calls st) videoID [lang] = FetchErr err ->
  is_temporary (ToLower err) = false ->
  Contains (ToLower err) "captions not found" = true ->
  exists st',
    lang_loop videoID (lang :: rest) st = lang_loop videoID rest st' /\
    trace st' = trace st ++ [EvAcquire; EvFetch videoID lang] /\
    calls st' = S (calls st) /\
    lastError st' = Some err /\
    response st' = response st.
Proof.
  intros Hf Hup Ht Hc.
  exists (set_lastError err (called (emit (EvFetch videoID lang) (emit EvAcquire st)))).
  split_and!; [|by rw /= -app_assoc|done..].
  rw (lang_loop_cons GetTranscripts Format profanityWords). cbv zeta.
  assert (retry_loop maxRetries 0 videoID lang (emit EvAcquire st) =
          set_lastError err (called (emit (EvFetch videoID lang) (emit EvAcquire st))))
    as ->.
  { rw {1}/maxRetries (retry_loop_unfold GetTranscripts Format profanityWords).
    rw /retry_step /maxRetries. simpl negb. cbv iota zeta.
    change (calls (if (0 <? 0)%nat then _ else emit EvAcquire st)) with (calls st).
    rw Hup Ht Hc. done. }
  by rw /= Hf.
Qed.

(** After [k] errors that keep the loop going, a call that returns a
    transcript which the formatter accepts ends the retry loop with the
    verdict. *)
Lemma retry_loop_success_after (k : nat) videoID lang (t0 : Transcript)
    (ts : list Transcript) (text : string) :
  Format [t0] = Formatted text ->
  forall fuel attempt st,
    attempt + k < maxRetries -> k < fuel ->
    (forall i, i < k -> exists e,
        GetTranscripts (calls st + i) videoID [lang] = FetchErr e /\
        keeps_retrying e = true) ->
    GetTranscripts (calls st + k) videoID [lang] = FetchOk (t0 :: ts) ->
    trace (retry_loop fuel attempt videoID lang st) =
      trace st ++ attempt_events videoID lang attempt (S k) /\
    foundTranscript (retry_loop fuel attempt videoID lang st) = true /\
    Profanity (response (retry_loop fuel attempt videoID lang st)) =
      containsProfanity profanityWords text /\
    Error (response (retry_loop fuel attempt videoID lang st)) = Error (response st) /\
    VideoID (response (retry_loop fuel attempt videoID lang st)) =
      VideoID (response st) /\
    calls (retry_loop fuel attempt videoID lang st) = calls st + S k.
Proof.
  intros Hfmt. induction k as [|k IH]; intros fuel attempt st Hlt Hfuel Herrs Hok.
  - destruct fuel as [|fuel]; [lia|].
    rw (retry_loop_unfold GetTranscripts Format profanityWords) /retry_step.
    rw (attempt_ok_lt attempt 0) //. simpl negb. cbv iota zeta.
    set (st1 := if (0 <? attempt)%nat then emit (EvSleep (backoff attempt)) st else st).
    assert (calls st1 = calls st) as Hc by (rw /st1; by destruct (0 <? attempt)%nat).
    assert (trace st1 ++ [EvFetch videoID lang] =
            trace st ++ attempt_events videoID lang attempt 1) as Ht.
    { rw /st1 /=. destruct (0 <? attempt)%nat; by rw /= -?app_assoc. }
    assert (VideoID (response st1) = VideoID (response st) /\
            Error (response st1) = Error (response st)) as [Hv He].
    { rw /st1. by destruct (0 <? attempt)%nat. }
    clearbody st1. rw Nat.add_0_r in Hok. rw Hc Hok /success_case Hfmt /=.
    rw Ht Hc Hv He. split_and!; try done. lia.
  - destruct fuel as [|fuel]; [lia|].
    destruct (Herrs 0 ltac:(lia)) as (e & He & Hk). rw Nat.add_0_r in He.
    rw (retry_loop_unfold GetTranscripts Format profanityWords) /retry_step.
    rw (attempt_ok_lt attempt (S k)) //. simpl negb. cbv iota zeta.
    set (st1 := if (0 <? attempt)%nat then emit (EvSleep (backoff attempt)) st else st).
    assert (calls st1 = calls st) as Hc by (rw /st1; by destruct (0 <? attempt)%nat).
    assert (trace st1 ++ [EvFetch videoID lang] =
            trace st ++ attempt_events videoID lang attempt 1) as Ht.
    { rw /st1 /=. destruct (0 <? attempt)%nat; by rw /= -?app_assoc. }
    assert (VideoID (response st1) = VideoID (response st) /\
            Error (response st1) = Error (response st)) as [Hv Hee].
    { rw /st1. by destruct (0 <? attempt)%nat. }
    clearbody st1. rw Hc He.
    set (st2 := set_lastError e (called (emit (EvFetch videoID lang) st1))).
    assert (retry_loop fuel (S attempt) videoID lang st2 =
            (if is_temporary (ToLower e) then retry_loop fuel (S attempt) videoID lang st2
             else if Contains (ToLower e) "captions not found" then st2
             else if (attempt <? maxRetries - 1)%nat
                  then retry_loop fuel (S attempt) videoID lang st2 else st2)) as <-.
    { rw /keeps_retrying in Hk. destruct (is_temporary (ToLower e)); [done|].
      simpl in Hk. apply negb_true_iff in Hk as ->.
      by assert ((attempt <? maxRetries - 1)%nat = true) as ->
        by (apply Nat.ltb_lt; lia). }
    destruct (IH fuel (S attempt) st2) as (T & F & Pr & Er & V & C).
    + lia.
    + lia.
    + intros i Hi. destruct (Herrs (S i) ltac:(lia)) as (e' & He' & Hk').
      exists e'. split; [|done]. rw -He' /st2 /= Hc. f_equal. lia.
    + rw -Hok /st2 /= Hc. f_equal. lia.
    + rw T F Pr Er V C /st2 /= Hc Hv Hee. split_and!; try done.
      rw Ht -app_assoc /=. by destruct (0 <? attempt)%nat.
Qed.

(** [X8] When the first language of a job's list, after at most two errors
    that keep the retry loop going, returns a transcript that the formatter
    accepts, the job ends there: the Result is the verdict of the
    vocabulary check on the formatted text, with no error; the trace is the
    wait on the rate limiter and the attempts on that language, and no
    other language is tried. *)
Theorem success_ends_the_job job calls0 lang (rest : list string) (k : nat)
    (t0 : Transcript) (ts : list Transcript) (text : string) :
  languagesToTry (Languages job) = lang :: rest ->
  k < maxRetries ->
  (forall i, i < k -> exists e,
      GetTranscripts (calls0 + i) (JobVideoID job) [lang] = FetchErr e /\
      keeps_retrying e = true) ->
  GetTranscripts (calls0 + k) (JobVideoID job) [lang] = FetchOk (t0 :: ts) ->
  Format [t0] = Formatted text ->
  response (resolve job calls0) =
    mkResponse (JobVideoID job) (containsProfanity profanityWords text) "" /\
  trace (resolve job calls0) =
    EvAcquire :: attempt_events (JobVideoID job) lang 0 (S k) /\
  calls (resolve job calls0) = calls0 + S k.
Proof.
  intros Hlangs Hk Herrs Hok Hfmt. rw /resolve Hlangs.
  set (st0 := mkRun _ _ _ _ _).
  rw (lang_loop_cons GetTranscripts Format profanityWords). cbv zeta.
  destruct (retry_loop_success_after k (JobVideoID job) lang t0 ts text Hfmt
              maxRetries 0 (emit EvAcquire st0))
    as (T & F & Pr & Er & V & C); [lia|lia|done|done|].
  set (st' := retry_loop maxRetries 0 (JobVideoID job) lang (emit EvAcquire st0)) in *.
  clearbody st'. rw F /finish F /=. split_and!; [|done|done].
  destruct st' as [[v p e] le f c tr]. simpl in *. by subst.
Qed.

Lemma verdict_inv_resolve job calls0 :
  verdict_inv calls0 (JobVideoID job) (languagesToTry (Languages job))
    (resolve job calls0).
Proof.
  rw /resolve. set (st0 := mkRun _ _ _ _ _).
  set (langs := languagesToTry (Languages job)).
  assert (forall st, verdict_inv calls0 (JobVideoID job) langs st ->
                     verdict_inv calls0 (JobVideoID job) langs
                       (finish (JobVideoID job) langs st)) as Hfin.
  { intros st H. rw /finish. by destruct (_ && _). }
  apply Hfin, lang_loop_inv.
  - by intros st H.
  - intros lang Hin. split_and!.
    + by intros st d H.
    + intros st err (Hc & Hn & Hy) _. split_and!; [simpl; lia|done|].
      intros Hf. destruct (Hy Hf) as (n & l & t0 & ts & text & ? & ?).
      exists n, l, t0, ts, text. split; [simpl; lia|done].
    + intros st (Hc & Hn & Hy) _. split_and!; [simpl; lia|done|].
      intros Hf. destruct (Hy Hf) as (n & l & t0 & ts & text & ? & ?).
      exists n, l, t0, ts, text. split; [simpl; lia|done].
    + intros st t0 ts (Hc & Hn & Hy) Hup. rw /success_case.
      destruct (Format [t0]) as [text|err] eqn:Hfmt.
      * split_and!; [simpl; lia|done|]. intros _.
        exists (calls st), lang, t0, ts, text. split_and!; simpl; try done; lia.
      * split_and!; [simpl; lia|done|].
        intros Hf. destruct (Hy Hf) as (n & l & t0' & ts' & text & ? & ?).
        exists n, l, t0', ts', text. split; [simpl; lia|done].
  - split_and!; [simpl; lia|done|done].
Qed.

(** [X9] The verdict of a job that found a transcript is the vocabulary
    check of the text that the formatter made of the first transcript
    returned by one upstream call of this job, for a language of its
    list. *)
Theorem verdict_from_transcript job calls0 :
  foundTranscript (resolve job calls0) = true ->
  exists n lang t0 ts text,
    calls0 <= n < calls (resolve job calls0) /\
    lang ∈ languagesToTry (Languages job) /\
    GetTranscripts n (JobVideoID job) [lang] = FetchOk (t0 :: ts) /\
    Format [t0] = Formatted text /\
    Profanity (response (resolve job calls0)) =
      containsProfanity profanityWords text.
Proof. intros Hf. by destruct (verdict_inv_resolve job calls0) as (_ & _ & H); apply H. Qed.

Lemma handler_reply_error (r : TranscriptResponse) :
  Error r <> "" -> exists status, handler_reply r = ReplyError status (Error r).
Proof.
  intros H. rw /handler_reply decide_True //.
  destruct (Contains _ "no transcripts"); [by eexists|].
  destruct (Contains _ "captions not found"); [by eexists|].
  destruct (_ || _); by eexists.
Qed.

(** [X10] A job that found no transcript always gives a failure Result:
    the verdict is false, the error is not empty and the handler answers
    with this error; so an answer with a verdict is only given for a job
    that found a transcript. *)
Theorem no_transcript_is_failure job calls0 :
  foundTranscript (resolve job calls0) = false ->
  Profanity (response (resolve job calls0)) = false /\
  Error (response (resolve job calls0)) <> "" /\
  exists status,
    handler_reply (response (resolve job calls0)) =
    ReplyError status (Error (response (resolve job calls0))).
Proof.
  intros Hf. destruct (verdict_inv_resolve job calls0) as (_ & Hp & _).
  assert (Error (response (resolve job calls0)) <> "") as He.
  { revert Hf. rw /resolve /finish.
    set (st := lang_loop _ _ _).
    destruct (foundTranscript st) eqn:E; [simpl; congruence|]. simpl.
    destruct (bool_decide (Error (response st) = "")) eqn:D; simpl.
    - intros _. apply failure_message_nonempty.
    - intros _. by apply bool_decide_eq_false in D. }
  split_and!; [by apply Hp|done|by apply handler_reply_error].
Qed.

Lemma last_error_app (n : nat) (acc : option string) (a b : list Event) :
  last_error n acc (a ++ b) =
  last_error (n + count is_fetch a) (last_error n acc a) b.
Proof.
  revert n acc. induction a as [|e a IH]; intros n acc.
  { by rw /= /count /= Nat.add_0_r. }
  rw count_cons. destruct e; rw /= IH //. f_equal. lia.
Qed.

Lemma error_inv_emit calls0 st (e : Event) :
  is_fetch e = false -> error_inv calls0 st -> error_inv calls0 (emit e st).
Proof.
  intros He (L & C & E). split_and!; [|by rw /= count_snoc He Nat.add_0_r|done].
  rw /= last_error_app -L. by destruct e.
Qed.

Lemma error_inv_lang_loop calls0 videoID (langs : list string) st :
  error_inv calls0 st -> error_inv calls0 (lang_loop videoID langs st).
Proof.
  apply lang_loop_inv.
  - intros st'. by apply error_inv_emit.
  - intros lang _. split_and!.
    + intros st' d. by apply error_inv_emit.
    + intros st' err (L & C & E) Hup. split_and!; [|rw /= count_snoc /= C; lia|done].
      by rw /= last_error_app /= -C Hup.
    + intros st' (L & C & E) Hup. split_and!; [|rw /= count_snoc /= C; lia|done].
      by rw /= last_error_app /= -C Hup -L.
    + intros st' t0 ts (L & C & E) Hup.
      destruct (success_case_frame Format profanityWords t0
                  (called (emit (EvFetch videoID lang) st'))) as (T & C' & L' & _).
      split_and!.
      * by rw L' T /= last_error_app /= -C Hup -L.
      * rw C' T /= count_snoc /= C. lia.
      * rw /success_case. destruct (Format [t0]) as [text|err]; [done|].
        right. by exists err.
Qed.

(** [X11] The error that a job remembers is the error of its most recent
    failing upstream call (none if no call failed; calls that return no
    transcript leave it as it is).  When no transcript is found, the error
    of the Result is the message of a format failure, or else the message
    chosen from that remembered error. *)
Theorem failure_reports_last_error job calls0 :
  lastError (resolve job calls0) =
    last_error calls0 None (trace (resolve job calls0)) /\
  (foundTranscript (resolve job calls0) = false ->
   Error (response (resolve job calls0)) =
     failure_message (JobVideoID job) (languagesToTry (Languages job))
       (last_error calls0 None (trace (resolve job calls0))) \/
   exists e, Error (response (resolve job calls0)) = format_failure e).
Proof.
  rw /resolve. set (st0 := mkRun _ _ _ _ _).
  set (langs := languagesToTry (Languages job)).
  destruct (error_inv_lang_loop calls0 (JobVideoID job) langs st0) as (L & _ & E).
  { split_and!; [done|rw /= /count /=; lia|by left]. }
  set (st := lang_loop (JobVideoID job) langs st0) in *. clearbody st.
  rw /finish. destruct (foundTranscript st) eqn:F; simpl.
  { split; [done|congruence]. }
  destruct E as [E|[e E]].
  - rw E bool_decide_true //=. split; [done|]. intros _. left. by rw L.
  - rw bool_decide_false.
    { rw E /format_failure. by rw str_app_cons. }
    split; [done|]. intros _. right. by exists e.
Qed.

Lemma Contains_unfold (s substr : string) :
  Contains s substr =
  HasPrefix s substr ||
  match s with "" => false | String _ r => Contains r substr end.
Proof. by destruct s. Qed.

Lemma HasPrefix_app (p rest : string) : HasPrefix (p +:+ rest) p = true.
Proof.
  rw /HasPrefix. induction p as [|c p IH]; [by destruct rest|].
  rw str_app_cons /=. by destruct (ascii_dec c c).
Qed.

Lemma Contains_app (p rest : string) : Contains (p +:+ rest) p = true.
Proof. by rw Contains_unfold HasPrefix_app. Qed.

(** When every upstream call returns no transcript and no error, the
    language loop goes through the whole list, three attempts on each
    language, and remembers no error. *)
Lemma lang_loop_all_empty videoID (langs : list string) st :
  (forall n lang, GetTranscripts n videoID [lang] = FetchOk []) ->
  foundTranscript st = false ->
  trace (lang_loop videoID langs st) =
    trace st ++ job_events videoID ((fun lang => (lang, maxRetries)) <$> langs) /\
  foundTranscript (lang_loop videoID langs st) = false /\
  response (lang_loop videoID langs st) = response st /\
  lastError (lang_loop videoID langs st) = lastError st.
Proof.
  intros Hup. revert st. induction langs as [|lang rest IH]; intros st Hf.
  { rw /= app_nil_r. split_and!; done. }
  rw (empty_language_retried GetTranscripts Format profanityWords) //.
  destruct (IH (after_three videoID lang (lastError st) (emit EvAcquire st)))
    as (T & F & R & L); [done|].
  rw T F R L. split_and!; [|done..]. by rw /= -!app_assoc.
Qed.

(** [X12] When every upstream call of a job returns no transcript and no
    error, every language of the list gets three attempts, the Result is
    the failure "No transcripts found ... in any of the attempted
    languages", and the handler answers it with status 404, whatever the
    video id. *)
Theorem nothing_anywhere_is_not_found job calls0 :
  (forall n lang, GetTranscripts n (JobVideoID job) [lang] = FetchOk []) ->
  trace (resolve job calls0) =
    job_events (JobVideoID job)
      ((fun lang => (lang, maxRetries)) <$> languagesToTry (Languages job)) /\
  response (resolve job calls0) =
    mkResponse (JobVideoID job) false
      (msg_none_found (JobVideoID job) (languagesToTry (Languages job))) /\
  handler_reply (response (resolve job calls0)) =
    ReplyError StatusNotFound
      (msg_none_found (JobVideoID job) (languagesToTry (Languages job))).
Proof.
  intros Hup. rw /resolve. set (st0 := mkRun _ _ _ _ _).
  set (langs := languagesToTry (Languages job)).
  destruct (lang_loop_all_empty (JobVideoID job) langs st0 Hup eq_refl)
    as (T & F & R & L).
  set (st := lang_loop (JobVideoID job) langs st0) in *. clearbody st.
  rw /finish F R L /= T R /st0 /= /failure_message. split_and!; [done..|].
  rw /handler_reply. cbn [Error].
  destruct (decide (msg_none_found (JobVideoID job) langs <> "")) as [_|Hn].
  2: { exfalso. apply Hn. rw /msg_none_found. by rw str_app_cons. }
  assert (Contains (ToLower (msg_none_found (JobVideoID job) langs)) "no transcripts"
          = true) as ->; [|done].
  rw /msg_none_found ToLower_app.
  change (ToLower "No transcripts found for video ") with
    ("no transcripts" +:+ " found for video ").
  by rw str_app_assoc Contains_app.
Qed.

(** [X14] A request with a video id, served by a worker that takes its job
    at once, never waits: the handler receives the Result that the worker
    resolved for this job and answers with it; the response channel is
    empty again afterwards, the other channels are as before, and the
    events are those of the job followed by the single send. *)
Theorem handler_round_trip (vars : gmap string string) (langParam videoID : string)
    (w : World) :
  vars !! "video_id" = Some videoID ->
  videoID <> "" ->
  exists job w',
    job = mkJob videoID (handler_languages langParam) (fresh (dom (chans w))) /\
    getTranscriptHandler vars langParam w =
      (Replied (handler_reply (response (resolve job (ncalls w)))), w') /\
    chans w' = <[Response job := make_chan 1]> (chans w) /\
    chans w !! Response job = None /\
    ncalls w' = calls (resolve job (ncalls w)) /\
    events w' = events w ++ trace (resolve job (ncalls w)) ++
                [EvSend (Response job) (response (resolve job (ncalls w)))].
Proof.
  intros Hv Hne. eexists _, _. split; [done|].
  rw /getTranscriptHandler Hv decide_False // /handler_submit /worker_job /=.
  rw lookup_insert_eq /= lookup_insert_eq /=. split_and!; [done| |  |done|done].
  - by rw /= !insert_insert_eq.
  - apply not_elem_of_dom, is_fresh.
Qed.

End EngineMore.

(** ** Further runs in the example environments *)

Lemma captions_not_found_skips_witness :
  exists st',
    lang_loop string upstream_no_captions format_text example_words "abc123"
      ["en"; "fr"] (mkRun (mkResponse "abc123" false "") None false 0 []) =
    lang_loop string upstream_no_captions format_text example_words "abc123"
      ["fr"] st' /\
    trace st' = [EvAcquire; EvFetch "abc123" "en"].
Proof.
  destruct (captions_not_found_skips upstream_no_captions format_text example_words
              "abc123" "en" ["fr"] (mkRun (mkResponse "abc123" false "") None false 0 [])
              "Captions not found for this language")
    as (st' & Hl & Ht & _); [done|done|by vm_compute|by vm_compute|].
  by exists st'.
Defined.

Lemma success_ends_the_job_witness :
  response (resolve string upstream_flaky format_text example_words
              (example_job "xyz" "") 0) = mkResponse "xyz" false "" /\
  trace (resolve string upstream_flaky format_text example_words
           (example_job "xyz" "") 0) =
    [EvAcquire; EvFetch "xyz" "en"; EvSleep 2000000000; EvFetch "xyz" "en";
     EvSleep 4000000000; EvFetch "xyz" "en"].
Proof.
  destruct (success_ends_the_job upstream_flaky format_text example_words
              (example_job "xyz" "") 0 "en" (tail fallbackLanguages) 2
              "en" [] "en") as (R & T & _).
  - done.
  - unfold maxRetries; lia.
  - intros i Hi. exists "connection timeout". split; [|by vm_compute].
    rw /upstream_flaky. by destruct i as [|[|i]]; [..|lia].
  - done.
  - done.
  - split; [|exact T]. rw R. by vm_compute.
Defined.

Lemma verdict_from_transcript_witness :
  exists n lang t0 ts text,
    0 <= n < calls (resolve string upstream_echo format_text example_words
                      (example_job "abc123" "fr") 0) /\
    lang ∈ languagesToTry (Languages (example_job "abc123" "fr")) /\
    upstream_echo n "abc123" [lang] = FetchOk (t0 :: ts) /\
    format_text [t0] = Formatted text /\
    Profanity (response (resolve string upstream_echo format_text example_words
                           (example_job "abc123" "fr") 0)) =
      containsProfanity example_words text.
Proof.
  apply (verdict_from_transcript upstream_echo format_text example_words
           (example_job "abc123" "fr") 0).
  by vm_compute.
Defined.

Lemma no_transcript_is_failure_witness :
  Profanity (response (resolve string upstream_private format_text example_words
                         (example_job "abc123" "fr") 0)) = false /\
  Error (response (resolve string upstream_private format_text example_words
                     (example_job "abc123" "fr") 0)) <> "" /\
  exists status,
    handler_reply (response (resolve string upstream_private format_text
                               example_words (example_job "abc123" "fr") 0)) =
    ReplyError status
      (Error (response (resolve string upstream_private format_text example_words
                          (example_job "abc123" "fr") 0))).
Proof.
  apply (no_transcript_is_failure upstream_private format_text example_words
           (example_job "abc123" "fr") 0).
  by vm_compute.
Defined.

Lemma nothing_anywhere_is_not_found_witness :
  handler_reply (response (resolve string upstream_empty format_text example_words
                             (example_job "abc123" "") 0)) =
  ReplyError StatusNotFound
    (msg_none_found "abc123" (languagesToTry (Languages (example_job "abc123" "")))).
Proof.
  by destruct (nothing_anywhere_is_not_found upstream_empty format_text example_words
                 (example_job "abc123" "") 0) as (_ & _ & H).
Defined.

Lemma handler_round_trip_witness :
  exists w',
    getTranscriptHandler string upstream_echo format_but_en example_words
      example_vars "" (mkWorld ∅ 0 []) =
    (Replied (ReplyError StatusInternalServerError "failed to format transcript: boom"),
     w') /\
    chans w' !! 0 = Some (make_chan 1).
Proof.
  destruct (handler_round_trip upstream_echo format_but_en example_words
              example_vars "" "abc123" (mkWorld ∅ 0 []))
    as (job & w' & -> & H & Hc & _); [by vm_compute|done|].
  exists w'. split.
  - rw H. by vm_compute.
  - rw Hc. by vm_compute.
Defined.

(** ** The earlier revision of [worker] *)

Section EarlierFacts.

Context {Transcript : Type}.
Variable GetTranscripts : nat -> string -> list string -> FetchOutcome Transcript.
Variable Format : list Transcript -> FormatOutcome.
Variable profanityWords : gset string.

Local Abbreviation success_case := (success_case Transcript Format profanityWords).
Local Abbreviation earlier_loop :=
  (Earlier.lang_loop Transcript GetTranscripts Format profanityWords).
Local Abbreviation earlier_resolve :=
  (Earlier.resolve Transcript GetTranscripts Format profanityWords).

Implicit Types (st : Run) (videoID lang : string) (job : Job).

Lemma fetched_app (tr1 tr2 : list Event) :
  fetched (tr1 ++ tr2) = fetched tr1 ++ fetched tr2.
Proof.
  induction tr1 as [|e tr1 IH]; [done|]. destruct e; by rw /= ?IH.
Qed.

(** In the earlier loop, a run without error in its response ends with a
    transcript found and still no error, or with none found and no
    verdict. *)
Lemma earlier_loop_result videoID (langs : list string) st :
  Error (response st) = "" -> foundTranscript st = false ->
  Profanity (response st) = false ->
  (foundTranscript (earlier_loop videoID langs st) = true /\
   Error (response (earlier_loop videoID langs st)) = "") \/
  (foundTranscript (earlier_loop videoID langs st) = false /\
   Profanity (response (earlier_loop videoID langs st)) = false).
Proof.
  revert st. induction langs as [|lang rest IH]; intros st He Hf Hp; [by right|].
  simpl. destruct (GetTranscripts (calls st) videoID [lang]) as [err|[|t0 ts]].
  - destruct (Contains (ToLower err) "captions not found"); [by apply IH|by right].
  - by apply IH.
  - rw /success_case. destruct (Format [t0]); [by left|by right].
Qed.

(** [X15] In the earlier revision of [worker], a Result never carries both
    an error and a verdict: when a transcript was found the error is empty,
    and when none was found the verdict is false and the error is not
    empty. *)
Theorem earlier_result_is_verdict_or_error job calls0 :
  (foundTranscript (Earlier.resolve _ GetTranscripts Format profanityWords job calls0) = true ->
   Error (response (Earlier.resolve _ GetTranscripts Format profanityWords job calls0)) = "") /\
  (foundTranscript (Earlier.resolve _ GetTranscripts Format profanityWords job calls0) = false ->
   Profanity (response (Earlier.resolve _ GetTranscripts Format profanityWords job calls0)) = false /\
   Error (response (Earlier.resolve _ GetTranscripts Format profanityWords job calls0)) <> "").
Proof.
  rw /Earlier.resolve. set (st0 := mkRun _ _ _ _ _).
  set (langs := Earlier.languagesToTry (Languages job)).
  destruct (earlier_loop_result (JobVideoID job) langs st0) as [[F E]|[F P]];
    [done..| |].
  - rw /Earlier.finish F /=. split; [done|congruence].
  - set (st := earlier_loop (JobVideoID job) langs st0) in *. clearbody st.
    rw /Earlier.finish F /=. split.
    + destruct (bool_decide _); [destruct (lastError st)|]; simpl; congruence.
    + intros _. destruct (bool_decide (Error (response st) = "")) eqn:D.
      * destruct (lastError st); simpl; (split; [done|]);
          rw /Earlier.msg_last_error /Earlier.msg_none_found; by rw str_app_cons.
      * split; [done|]. by apply bool_decide_eq_false in D.
Qed.

(** The earlier loop on languages that all answer "captions not found",
    followed by a language that answers with another error. *)
Lemma earlier_loop_stops videoID (pre : list string) lang (rest : list string)
    (err : string) st :
  (forall i l, pre !! i = Some l -> exists e,
      GetTranscripts (calls st + i) videoID [l] = FetchErr e /\
      Contains (ToLower e) "captions not found" = true) ->
  GetTranscripts (calls st + List.length pre) videoID [lang] = FetchErr err ->
  Contains (ToLower err) "captions not found" = false ->
  fetched (trace (earlier_loop videoID (pre ++ lang :: rest) st)) =
    fetched (trace st) ++ pre ++ [lang] /\
  lastError (earlier_loop videoID (pre ++ lang :: rest) st) = Some err /\
  foundTranscript (earlier_loop videoID (pre ++ lang :: rest) st) =
    foundTranscript st /\
  response (earlier_loop videoID (pre ++ lang :: rest) st) = response st.
Proof.
  revert st. induction pre as [|l pre IH]; intros st Hpre Hup Hc.
  - rw /= Nat.add_0_r in Hup. rw /= Hup Hc /= fetched_app. done.
  - destruct (Hpre 0 l eq_refl) as (e & He & Hcnf). rw Nat.add_0_r in He.
    rw /= He Hcnf.
    set (st1 := set_lastError e (called (emit (EvFetch videoID l) st))).
    destruct (IH st1) as (T & L & F & R).
    + intros i l' Hl. destruct (Hpre (S i) l' Hl) as (e' & He' & ?).
      exists e'. split; [|done]. rw -He' /st1 /=. f_equal. lia.
    + rw -Hup /st1 /=. f_equal. lia.
    + done.
    + rw T L F R /st1 /= fetched_app /= -!app_assoc. done.
Qed.

(** [X16] In the earlier revision of [worker], the first upstream error
    that is not "captions not found" ends the job: after languages that
    all answered "captions not found", such an error on the next language
    means that no further language is called, and the Result is the
    failure that quotes this last error. *)
Theorem earlier_error_ends_the_job job calls0 (pre : list string) lang
    (rest : list string) (err : string) :
  Earlier.languagesToTry (Languages job) = pre ++ lang :: rest ->
  (forall i l, pre !! i = Some l -> exists e,
      GetTranscripts (calls0 + i) (JobVideoID job) [l] = FetchErr e /\
      Contains (ToLower e) "captions not found" = true) ->
  GetTranscripts (calls0 + List.length pre) (JobVideoID job) [lang] = FetchErr err ->
  Contains (ToLower err) "captions not found" = false ->
  fetched (trace (Earlier.resolve _ GetTranscripts Format profanityWords job calls0)) = pre ++ [lang] /\
  response (Earlier.resolve _ GetTranscripts Format profanityWords job calls0) =
    mkResponse (JobVideoID job) false (Earlier.msg_last_error (JobVideoID job) err).
Proof.
  intros Hl Hpre Hup Hc. rw /Earlier.resolve Hl. set (st0 := mkRun _ _ _ _ _).
  destruct (earlier_loop_stops (JobVideoID job) pre lang rest err st0 Hpre Hup Hc)
    as (T & L & F & R).
  set (st := earlier_loop (JobVideoID job) (pre ++ lang :: rest) st0) in *.
  clearbody st. rw /Earlier.finish F R L /=. by rw T R.
Qed.

End EarlierFacts.

Lemma earlier_error_ends_the_job_witness :
  fetched (trace (Earlier.resolve string upstream_private format_text example_words
                    (example_job "abc123" "") 0)) = ["en"] /\
  response (Earlier.resolve string upstream_private format_text example_words
              (example_job "abc123" "") 0) =
    mkResponse "abc123" false (Earlier.msg_last_error "abc123" "video is private").
Proof.
  apply (earlier_error_ends_the_job upstream_private format_text example_words
           (example_job "abc123" "") 0 [] "en" (tail Earlier.fallbackLanguages)
           "video is private").
  - done.
  - intros i l Hl. by rw lookup_nil in Hl.
  - done.
  - by vm_compute.
Defined.
